(** * gemmi prep: monomer resolution, ad-hoc restraints and automatic links

    A shallow embedding of the two versions of [prep.cpp] of this
    repository:
    - [src/prep.cpp], which carries its own link detector
      [assign_connections] and reads a single [--libin] library;
    - [prog/prep.cpp], which reads [--lib] (priority) and [--low]
      (fallback) libraries around the installed monomer library.

    Conventions of the embedding.
    - A finite [float] or [double] is the rational it denotes ([Q]).  The
      arithmetic of the link test rounds as IEEE 754 does, to nearest
      with ties to even: [float_add] in single precision, [double_add]
      and [sq_double] in double precision.  Comparison is exact:
      [a > b] is [Qgtb a b].
    - [int] is [Z] with two's-complement wrap-around written out
      ([int_incr]).
    - [std::map<std::string, ChemComp>] is [gmap string ChemComp].
    - A pointer into the model ([const Residue*], the members of [CRA])
      is the object it points to; where the position matters it is an
      index into the chain/residue traversal.
    - Everything the program prints or reads is an [Event] of a trace;
      C++ exceptions and early [return]s are a [Control] value. *)

From Stdlib Require Import Ascii QArith Qround Qabs Qpower Lqa.
From stdpp Require Import gmap strings list fin_maps pretty sorting.

(** ** Data model (the parts of gemmi's model that prep.cpp touches) *)

Record Atom := {
  atom_name : string;
  element : string;
  pos : Q * Q * Q
}.

Record Residue := {
  res_name : string;
  seqid : Z;
  atoms : list Atom
}.

Record Chain := {
  chain_name : string;
  residues : list Residue
}.

Record Model := { chains : list Chain }.

Record UnitCell := { cell_abc : Q * Q * Q; cell_angles : Q * Q * Q }.

Record AtomAddress := {
  addr_chain : string;
  addr_res_name : string;
  addr_seqid : Z;
  addr_atom : string
}.

Inductive ConnectionType := Covale | Disulf | Hydrog | MetalC | UnknownType.
Inductive Asu := AsuAny | Same | Different.

Record Connection := {
  conn_name : string;
  conn_type : ConnectionType;
  asu : Asu;
  partner1 : AtomAddress;
  partner2 : AtomAddress;
  reported_distance : Q
}.

Record Structure := {
  cell : UnitCell;
  models : list Model;
  connections : list Connection
}.

(** [CRA]: pointers to a chain, a residue of it and an atom of it. *)
Record CRA := {
  cra_chain : Chain;
  cra_residue : Residue;
  cra_atom : Atom
}.

(** A mark of the neighbour index: where an atom sits in the model. *)
Record AtomIdx := {
  chain_idx : nat;
  residue_idx : nat;
  atom_idx : nat
}.

(** What the spatial index reports: two atoms, the symmetry image of the
    second one, the squared distance. *)
Record NeighborPair := {
  np_first : AtomIdx;
  np_second : AtomIdx;
  np_image_idx : Z;
  np_dist_sq : Q
}.

(** The arguments [for_each_contact] hands to its callback. *)
Record Contact := {
  cra1 : CRA;
  cra2 : CRA;
  image_idx : Z;
  dist_sq : Q
}.

Record ChemComp := {
  cc_name : string;
  cc_atoms : list string;
  cc_bonds : list (string * string * Q)
}.

Record MonLib := { monomers : gmap string ChemComp }.

(** A CIF document, as far as the monomer reader is concerned: the
    chemical components it defines, in file order. *)
Definition Document := list ChemComp.

(** ** Services of libraries outside the repository core

    The element table, libm's square root, the spatial index
    ([NeighborSearch::populate]) and the bond-inference routine are taken
    as an interface; every theorem holds for any implementation.  In the
    program [covalent_r] returns a [float] and a pair's squared distance
    is a [float]. *)
Class Externals := {
  covalent_r : string -> Q;
  sqrt : Q -> Q;
  neighbor_search : Model -> UnitCell -> Q -> list NeighborPair;
  make_chemcomp_with_restraints : Residue -> ChemComp
}.

(** ** Numbers *)

(** *** Binary floating point

    An operation on [float] or [double] values computes the exact result
    and rounds it to the format, to the nearest value and to the one
    with an even last digit when two are equally near (the default
    rounding of IEEE 754; each operation is rounded to the format of its
    type, as on the targets where [FLT_EVAL_METHOD] is 0).  Values are the
    finite ones.  A single-precision sum too
    large for the format, which IEEE turns into an infinity, is kept as
    the number it rounds to with the exponent left free; a squared
    distance, being a finite [float], is above neither, so the link test
    comes out the same. *)

(** [floor (log2 q)], for [0 < q]. *)
Definition ilog2 (q : Q) : Z :=
  let k := (Z.log2 (Qnum q) - Z.log2 (Zpos (Qden q)))%Z in
  if Qle_bool (2 ^ k) q then k else (k - 1)%Z.

(** The integer nearest to [q], the even one of two equally near. *)
Definition nearest_even (q : Q) : Z :=
  let f := Qfloor q in
  match (q - inject_Z f ?= 1 # 2)%Q with
  | Lt => f
  | Gt => (f + 1)%Z
  | Eq => if Z.even f then f else (f + 1)%Z
  end.

(** Rounding to the format with [prec] significant bits whose least
    positive value is [2 ^ emin]. *)
Definition round (prec emin : Z) (q : Q) : Q :=
  let q := Qred q in
  if Qeq_bool q 0 then 0%Q
  else
    let e := Z.max (ilog2 (Qabs q) - (prec - 1)) emin in
    Qred (inject_Z (nearest_even (q / 2 ^ e)) * 2 ^ e).

(** binary32 and binary64. *)
Definition to_float : Q -> Q := round 24 (-149).
Definition to_double : Q -> Q := round 53 (-1074).

(** [a + b] on two [float]s, and on two [double]s. *)
Definition float_add (a b : Q) : Q := to_float (a + b).
Definition double_add (a b : Q) : Q := to_double (a + b).

(** [sq] of math.hpp, [x * x], in exact arithmetic and at type
    [double]. *)
Definition sq (x : Q) : Q := (x * x)%Q.
Definition sq_double (x : Q) : Q := to_double (x * x).

Definition Qgtb (a b : Q) : bool := negb (Qle_bool a b).

Definition INT_MAX : Z := 2147483647.
Definition INT_MIN : Z := -2147483648.

(** [++counter] on a 32-bit [int]. *)
Definition int_incr (c : Z) : Z :=
  if decide (c = INT_MAX) then INT_MIN else (c + 1)%Z.

(** [std::to_string(int)]. *)
Definition to_string (c : Z) : string := pretty c.

(** ** Traces and control *)

Inductive Event :=
  | Stdout (line : string)
  | Stderr (line : string)
  | ReadCif (path : string)
  | MonomerQuery (dir name : string).

Inductive Control (A : Type) :=
  | Normal (a : A)
  | Returned (code : Z)
  | Thrown (what : string).
Arguments Normal {A} a.
Arguments Returned {A} code.
Arguments Thrown {A} what.

(** A computation reads the trace so far and extends it. *)
Definition M (A : Type) : Type := list Event -> Control A * list Event.

Definition ret {A} (a : A) : M A := fun tr => (Normal a, tr).

Definition bind {A B} (m : M A) (k : A -> M B) : M B :=
  fun tr =>
    match m tr with
    | (Normal a, tr') => k a tr'
    | (Returned code, tr') => (Returned code, tr')
    | (Thrown what, tr') => (Thrown what, tr')
    end.

#[global] Instance M_ret : MRet M := @ret.
#[global] Instance M_bind : MBind M := fun A B k m => bind m k.

Definition emit (e : Event) : M unit := fun tr => (Normal tt, tr ++ [e]).
Definition printf (line : string) : M unit := emit (Stdout line).
Definition eprintf (line : string) : M unit := emit (Stderr line).
Definition return_ {A} (code : Z) : M A := fun tr => (Returned code, tr).
Definition when (b : bool) (m : M unit) : M unit := if b then m else ret tt.

(** [for (x : xs) body], threading a value through the iterations. *)
Fixpoint for_each {A S} (xs : list A) (body : A -> S -> M S) (s : S) : M S :=
  match xs with
  | [] => ret s
  | x :: xs' => s' ← body x s; for_each xs' body s'
  end.

(** ** Library helpers whose bodies are not in the repository sources *)

(** Modelled from the spec: [fail] of gemmi/fail.hpp, which is missing;
    a fatal condition aborts the run with one message. *)
Definition fail {A} (what : string) : M A := fun tr => (Thrown what, tr).

(** Modelled from the spec: [vector_remove_if] of gemmi/util.hpp, which is
    missing; the elements satisfying the predicate are removed, the others
    keep their order. *)
Definition vector_remove_if {A} (p : A -> bool) (v : list A) : list A :=
  filter (fun x => p x = false) v.

(** [monlib.monomers.count(s)] as a truth value. *)
Definition count (monlib : MonLib) (s : string) : bool :=
  bool_decide (is_Some (monomers monlib !! s)).

(** [std::map::emplace]: nothing happens when the key is present. *)
Definition emplace (name : string) (cc : ChemComp) (monlib : MonLib) : MonLib :=
  match monomers monlib !! name with
  | Some _ => monlib
  | None => {| monomers := <[name := cc]> (monomers monlib) |}
  end.

(** Modelled from the spec: [MonLib::read_monomer_doc], which is missing;
    every definition of the document is inserted, and an insertion under a
    name already defined is rejected (first write wins). *)
Definition read_monomer_doc (doc : Document) (monlib : MonLib) : MonLib :=
  foldl (fun ml cc => emplace (cc_name cc) cc ml) monlib doc.

(** The files the run can see. [None] is a file that cannot be read. *)
Record World := {
  getenv : string -> option string;
  read_structure_gz : string -> option (Structure * Document);
  read_cif_gz : string -> option Document;
  monomer_source : string -> string -> option ChemComp
}.

(** Modelled from the spec: [MonLib::read_monomer_cif], which is missing;
    the library file is read (an unreadable file is an exception of the
    reader) and its definitions are inserted as by [read_monomer_doc]. *)
Definition read_monomer_cif (w : World) (path : string) (monlib : MonLib)
  : M MonLib :=
  emit (ReadCif path);;
  match read_cif_gz w path with
  | Some doc => ret (read_monomer_doc doc monlib)
  | None => fail ("Failed to read " +:+ path)
  end.

(** Modelled from the spec: [MonLib::read_monomer_lib], which is missing;
    the installed source is asked for each requested name in turn; a
    definition it returns is inserted (first write wins), a name it cannot
    supply adds a line to the error string and is not fatal.  The result is
    the library, whether every request succeeded, and the error string. *)
Fixpoint read_monomer_lib (w : World) (monomer_dir : string)
    (resnames : list string) (monlib : MonLib) : M (MonLib * bool * string) :=
  match resnames with
  | [] => ret (monlib, true, "")
  | name :: rest =>
      emit (MonomerQuery monomer_dir name);;
      match monomer_source w monomer_dir name with
      | Some cc =>
          read_monomer_lib w monomer_dir rest (emplace name cc monlib)
      | None =>
          '(ml, _, error) ← read_monomer_lib w monomer_dir rest monlib;
          ret (ml, false,
               "Monomer not in the library: " +:+ name +:+ ". " +:+ error)
      end
  end.

(** The residues of a model in chain/residue traversal order. *)
Definition all_residues (model : Model) : list Residue :=
  concat (map residues (chains model)).

(** Modelled from the spec: [Model::get_all_residue_names], which is
    missing; the distinct residue names present in the model, each at its
    first occurrence in chain/residue order. *)
Definition get_all_residue_names (model : Model) : list string :=
  foldl (fun names res =>
           if decide (res_name res ∈ names) then names
           else names ++ [res_name res])
        [] (all_residues model).

(** Modelled from the spec: [make_address], which is missing; the address
    of an atom is its chain, its residue and its own name. *)
Definition make_address (ch : Chain) (res : Residue) (at_ : Atom) : AtomAddress :=
  {| addr_chain := chain_name ch;
     addr_res_name := res_name res;
     addr_seqid := seqid res;
     addr_atom := atom_name at_ |}.

Definition cra_address (cra : CRA) : AtomAddress :=
  make_address (cra_chain cra) (cra_residue cra) (cra_atom cra).

Definition to_lower (c : ascii) : ascii :=
  let n := nat_of_ascii c in
  if (65 <=? n)%nat && (n <=? 90)%nat then ascii_of_nat (n + 32) else c.

Fixpoint lowercase (s : string) : string :=
  match s with
  | EmptyString => EmptyString
  | String c s' => String (to_lower c) (lowercase s')
  end.

(** Modelled from the spec: the address match behind
    [find_connection_by_cra], which is missing; names are compared without
    regard to case, the sequence position exactly. *)
Definition address_matches (a b : AtomAddress) : bool :=
  String.eqb (lowercase (addr_chain a)) (lowercase (addr_chain b))
  && String.eqb (lowercase (addr_res_name a)) (lowercase (addr_res_name b))
  && Z.eqb (addr_seqid a) (addr_seqid b)
  && String.eqb (lowercase (addr_atom a)) (lowercase (addr_atom b)).

Definition connects (a b : AtomAddress) (c : Connection) : bool :=
  (address_matches (partner1 c) a && address_matches (partner2 c) b)
  || (address_matches (partner1 c) b && address_matches (partner2 c) a).

(** Modelled from the spec: [Structure::find_connection_by_cra], which is
    missing; the first recorded connection between this atom pair, if
    any. *)
Definition find_connection_by_cra (st : Structure) (a b : CRA)
  : option Connection :=
  List.find (connects (cra_address a) (cra_address b)) (connections st).

(** Modelled from the spec: [atom_str], which is missing; it names the
    atom by its address. *)
Definition atom_str (cra : CRA) : string :=
  chain_name (cra_chain cra) +:+ "/" +:+ res_name (cra_residue cra) +:+ " "
  +:+ pretty (seqid (cra_residue cra)) +:+ "/" +:+ atom_name (cra_atom cra).

(** *** ContactSearch *)

Inductive Ignore := IgnoreNothing | AdjacentResidues.

Record ContactSearch := {
  search_radius : Q;
  ignore : Ignore
}.

(** A mark resolved against the model. *)
Definition to_cra (model : Model) (m : AtomIdx) : option CRA :=
  ch ← chains model !! chain_idx m;
  res ← residues ch !! residue_idx m;
  at_ ← atoms res !! atom_idx m;
  Some {| cra_chain := ch; cra_residue := res; cra_atom := at_ |}.

(** Part of the model of [for_each_contact]: two marks in sequentially
    adjacent residues of one chain. *)
Definition adjacent_residues (a b : AtomIdx) : bool :=
  Nat.eqb (chain_idx a) (chain_idx b)
  && (Nat.eqb (S (residue_idx a)) (residue_idx b)
      || Nat.eqb (S (residue_idx b)) (residue_idx a)).

(** Part of the model of [for_each_contact]: what the [ignore] setting
    excludes. *)
Definition ignored (cs : ContactSearch) (p : NeighborPair) : bool :=
  match ignore cs with
  | IgnoreNothing => false
  | AdjacentResidues => adjacent_residues (np_first p) (np_second p)
  end.

(** Part of the model of [for_each_contact]: the callback's arguments
    for one neighbour pair, if the pair is visited at all. *)
Definition contact_of (cs : ContactSearch) (model : Model) (p : NeighborPair)
  : option Contact :=
  if Qle_bool (np_dist_sq p) (sq (search_radius cs)) && negb (ignored cs p)
  then
    a ← to_cra model (np_first p);
    b ← to_cra model (np_second p);
    Some {| cra1 := a; cra2 := b;
            image_idx := np_image_idx p; dist_sq := np_dist_sq p |}
  else None.

(** Modelled from the spec: [ContactSearch::for_each_contact], which is
    missing; the neighbour pairs within the contact radius are visited in
    the order of the index, and with [AdjacentResidues] a pair of atoms in
    adjacent residues of the same chain is skipped.  The result is the
    sequence of calls made to the callback. *)
Definition for_each_contact (cs : ContactSearch) (model : Model)
    (ns : list NeighborPair) : list Contact :=
  omap (contact_of cs model) ns.

(** ** Command line *)

(** The parsed options ([OptParser p] after [simple_parse]).  An option
    that may be given several times lists its arguments in order. *)
Record Options := {
  opt_monomers : option string;
  opt_libin : list string;
  opt_libin2 : list string;
  opt_auto_cis : option bool;
  opt_auto_link : option bool;
  opt_auto_ligand : option bool;
  opt_verbose : bool;
  input : string;
  output : string
}.

(** [p.is_yes(opt, default_)]. *)
Definition is_yes (opt : option bool) (default_ : bool) : bool :=
  match opt with
  | Some b => b
  | None => default_
  end.

(** What a run leaves behind: the exit status, the trace, and, when
    control passes the stages embedded here, the library and the
    structure it has then.  Status 0 stands for the run up to that
    point: the topology builder and the writer that follow are library
    calls outside the sources. *)
Record Run := {
  exit_code : Z;
  trace : list Event;
  prepared : option (MonLib * Structure)
}.

(** [try { body } catch (std::exception& e) { ... return 1; } return 0;] *)
Definition try_catch (body : M (MonLib * Structure)) : Run :=
  match body [] with
  | (Normal r, tr) => {| exit_code := 0; trace := tr; prepared := Some r |}
  | (Returned code, tr) => {| exit_code := code; trace := tr; prepared := None |}
  | (Thrown what, tr) =>
      {| exit_code := 1; trace := tr ++ [Stderr ("ERROR: " +:+ what)];
         prepared := None |}
  end.

(** ** Code shared by both versions *)

(** [p.options[Monomers] ? p.options[Monomers].arg : getenv("CLIBD_MON")]. *)
Definition monomer_dir (w : World) (p : Options) : option string :=
  match opt_monomers p with
  | Some arg => Some arg
  | None => getenv w "CLIBD_MON"
  end.

(** The body of the loops of [find_most_complete_residue]. *)
Definition visit (name : string) (r : option Residue) (residue : Residue)
  : option Residue :=
  if String.eqb (res_name residue) name
     && match r with
        | None => true
        | Some r0 => (length (atoms r0) <? length (atoms residue))%nat
        end
  then Some residue
  else r.

Definition find_most_complete_residue (name : string) (model : Model)
  : option Residue :=
  foldl (fun r chain => foldl (visit name) r (residues chain))
        None (chains model).

Section WithExternals.
Context `{Externals}.

(** One iteration of the loop that makes ad-hoc definitions
    (prog/prep.cpp lines 142-144, src/prep.cpp lines 146-148). *)
Definition make_new_ligand (model0 : Model) (monlib : MonLib) (name : string)
  : MonLib :=
  match monomers monlib !! name with
  | None =>
      match find_most_complete_residue name model0 with
      | Some res => emplace name (make_chemcomp_with_restraints res) monlib
      | None => monlib
      end
  | Some _ => monlib
  end.

(** [for (const std::string& name : names) ...]. *)
Definition make_new_ligands (model0 : Model) (names : list string)
    (monlib : MonLib) : MonLib :=
  foldl (make_new_ligand model0) monlib names.

End WithExternals.

(** ** src/prep.cpp *)

Module Src.
Section WithExternals.
Context `{Externals}.

(** The [Connection] built in the callback, for the counter value already
    incremented. *)
Definition new_connection (counter : Z) (c : Contact) : Connection :=
  {| conn_name := "added" +:+ to_string counter;
     conn_type := Covale;
     asu := if Z.eqb (image_idx c) 0 then Same else Different;
     partner1 := make_address (cra_chain (cra1 c)) (cra_residue (cra1 c))
                              (cra_atom (cra1 c));
     partner2 := make_address (cra_chain (cra2 c)) (cra_residue (cra2 c))
                              (cra_atom (cra2 c));
     reported_distance := sqrt (dist_sq c) |}.

Definition push_back (conn : Connection) (st : Structure) : Structure :=
  {| cell := cell st; models := models st;
     connections := connections st ++ [conn] |}.

(** The lambda passed to [for_each_contact]; it captures [st] and
    [counter] by reference.  [r1 + r2] adds two [float]s; the literal
    [0.5] is a [double], so the second sum, the square and the comparison
    with [dist_sq] are in double precision, to which a [float] converts
    unchanged. *)
Definition on_contact (c : Contact) (s : Structure * Z) : M (Structure * Z) :=
  let '(st, counter) := s in
  let r1 := covalent_r (element (cra_atom (cra1 c))) in
  let r2 := covalent_r (element (cra_atom (cra2 c))) in
  if Qgtb (dist_sq c) (sq_double (double_add (float_add r1 r2) (1 # 2)))
  then ret s
  else
    match find_connection_by_cra st (cra1 c) (cra2 c) with
    | Some _ => ret s
    | None =>
        let counter := int_incr counter in
        let conn := new_connection counter c in
        printf ("Added link " +:+ atom_str (cra1 c) +:+ " - "
                +:+ atom_str (cra2 c));;
        ret (push_back conn st, counter)
    end.

Definition assign_connections (model : Model) (st : Structure) : M Structure :=
  let ns := neighbor_search model (cell st) 5 in
  let contacts := {| search_radius := 7 # 2; ignore := AdjacentResidues |} in
  let counter := 0%Z in
  '(st, _) ← for_each (for_each_contact contacts model ns) on_contact
                      (st, counter);
  ret st.

(** [GEMMI_MAIN] inside [try], lines 115-155.  [setup_entities] and
    [assign_cis_flags] only touch fields outside the data model above. *)
Definition main_body (w : World) (p : Options) (monomer_dir : string)
  : M (MonLib * Structure) :=
  let verbose := opt_verbose p in
  when verbose (printf ("Reading " +:+ input p +:+ " ..."));;
  match read_structure_gz w (input p) with
  | None => fail ("Failed to read " +:+ input p)
  | Some (st, _) =>
      match models st with
      | [] => eprintf "No models found in the input file.";; return_ 1
      | model0 :: _ =>
          let monlib := {| monomers := ∅ |} in
          monlib ←
            match opt_libin p with
            | libin :: _ =>
                when verbose (printf ("Reading user's library " +:+ libin
                                      +:+ "..."));;
                read_monomer_cif w libin monlib
            | [] => ret monlib
            end;
          when verbose (printf "Reading monomer library...");;
          let resnames := get_all_residue_names model0 in
          '(monlib, ok, error) ←
            read_monomer_lib w monomer_dir resnames monlib;
          monlib ←
            (if negb ok then
               let make_new_ligands_ := is_yes (opt_auto_ligand p) false in
               printf error;;
               (if negb make_new_ligands_
                then fail "Please provide definitions for missing monomers."
                else ret tt);;
               printf "WARNING: using ad-hoc restraints for missing ligands.";;
               printf "*** Consider providing definitions of missing monomers. ***";;
               ret (make_new_ligands model0 resnames monlib)
             else ret monlib);
          st ←
            (if is_yes (opt_auto_link p) false
             then assign_connections model0 st
             else ret st);
          ret (monlib, st)
      end
  end.

Definition GEMMI_MAIN (w : World) (p : Options) : Run :=
  match monomer_dir w p with
  | None | Some "" =>
      {| exit_code := 1;
         trace := [Stderr "Set $CLIBD_MON or use option --monomers."];
         prepared := None |}
  | Some dir => try_catch (main_body w p dir)
  end.

End WithExternals.
End Src.

(** ** prog/prep.cpp *)

Module Prog.
Section WithExternals.
Context `{Externals}.

(** The lambda [read_user_file] (lines 105-112); ["+"] stands for the
    structure's own document. *)
Definition read_user_file (w : World) (verbose : bool) (st_doc : Document)
    (path : string) (monlib : MonLib) : M MonLib :=
  when verbose (printf ("Reading user's library " +:+ path +:+ "..."));;
  if String.eqb path "+"
  then ret (read_monomer_doc st_doc monlib)
  else read_monomer_cif w path monlib.

(** The keys of a [std::map], in its iteration order. *)
Definition keys (monlib : MonLib) : list string :=
  merge_sort (fun a b => String.leb a b) (elements (dom (monomers monlib))).

(** Lines 103-133: priority libraries, installed library, fallback
    libraries; the result is the library and the names still [needed]. *)
Definition resolve_monomers (w : World) (p : Options) (monomer_dir : string)
    (st_doc : Document) (model0 : Model) : M (MonLib * list string) :=
  let verbose := opt_verbose p in
  let monlib := {| monomers := ∅ |} in
  monlib ← for_each (opt_libin p) (read_user_file w verbose st_doc) monlib;
  when (verbose && negb (bool_decide (monomers monlib = ∅)))
       (printf (foldl (fun line name => line +:+ " " +:+ name)
                      "Monomers read so far:" (keys monlib)));;
  let needed := get_all_residue_names model0 in
  let needed := vector_remove_if (count monlib) needed in
  when verbose (printf "Reading monomer library...");;
  '(monlib, _, error) ← read_monomer_lib w monomer_dir needed monlib;
  when (negb (String.eqb error "")) (printf error);;
  monlib ← for_each (opt_libin2 p) (read_user_file w verbose st_doc) monlib;
  let needed := vector_remove_if (count monlib) needed in
  ret (monlib, needed).

(** Lines 141-146: the ad-hoc definitions and the two closing warnings. *)
Definition adhoc_restraints (model0 : Model) (needed : list string)
    (monlib : MonLib) : M MonLib :=
  let monlib := make_new_ligands model0 needed monlib in
  printf "WARNING: Using ad-hoc restraints for missing monomers.";;
  printf "WARNING: Restraints generated by a dedicated program would be better.";;
  ret monlib.

(** Lines 135-147. *)
Definition missing_monomers (p : Options) (model0 : Model)
    (needed : list string) (monlib : MonLib) : M MonLib :=
  match needed with
  | [] => ret monlib
  | _ =>
      for_each needed
        (fun name _ =>
           printf ("WARNING: definition not found for " +:+ name +:+ "."))
        tt;;
      let make_new_ligands_ := is_yes (opt_auto_ligand p) false in
      (if negb make_new_ligands_
       then fail "Missing monomer definitions"
       else ret tt);;
      adhoc_restraints model0 needed monlib
  end.

(** [GEMMI_MAIN] inside [try], lines 91-147.  [add_automatic_links] and
    what follows it are library calls that are not part of the sources;
    the embedding stops where control reaches them. *)
Definition main_body (w : World) (p : Options) (monomer_dir : string)
  : M (MonLib * Structure) :=
  let verbose := opt_verbose p in
  when verbose (printf ("Reading " +:+ input p +:+ " ..."));;
  match read_structure_gz w (input p) with
  | None => fail ("Failed to read " +:+ input p)
  | Some (st, st_doc) =>
      match models st with
      | [] => eprintf "No models found in the input file.";; return_ 1
      | model0 :: _ =>
          '(monlib, needed) ← resolve_monomers w p monomer_dir st_doc model0;
          monlib ← missing_monomers p model0 needed monlib;
          ret (monlib, st)
      end
  end.

Definition GEMMI_MAIN (w : World) (p : Options) : Run :=
  match monomer_dir w p with
  | None | Some "" =>
      {| exit_code := 1;
         trace := [Stderr "Set $CLIBD_MON or use option --monomers."];
         prepared := None |}
  | Some dir => try_catch (main_body w p dir)
  end.

End WithExternals.
End Prog.

(** ** Vocabulary of the statements *)

(** What the scan has established after a prefix [l] of the traversal. *)
Definition most_complete (name : string) (l : list Residue)
    (r : option Residue) : Prop :=
  match r with
  | None => forall x, x ∈ l -> res_name x <> name
  | Some r0 =>
      exists i, l !! i = Some r0 /\ res_name r0 = name /\
        forall j x, l !! j = Some x -> res_name x = name ->
          (length (atoms x) <= length (atoms r0))%nat /\
          (length (atoms x) = length (atoms r0) -> (i <= j)%nat)
  end.

(** The names the installed library was asked for, in order. *)
Definition installed_queries (tr : list Event) : list string :=
  omap (fun e => match e with MonomerQuery _ name => Some name | _ => None end)
       tr.

(** The document a user library argument stands for. *)
Definition user_doc (w : World) (st_doc : Document) (path : string)
  : option Document :=
  if String.eqb path "+" then Some st_doc else read_cif_gz w path.

(** The lines of the last block of the monomer stage. *)
Definition not_found (name : string) : Event :=
  Stdout ("WARNING: definition not found for " +:+ name +:+ ".").

Definition adhoc_warnings : list Event :=
  [ Stdout "WARNING: Using ad-hoc restraints for missing monomers.";
    Stdout "WARNING: Restraints generated by a dedicated program would be better." ].

(** The trace at the point where the structure file is opened. *)
Definition reading (p : Options) : list Event :=
  if opt_verbose p then [Stdout ("Reading " +:+ input p +:+ " ...")] else [].

(** The line printed for a new link. *)
Definition added_link (c : Contact) : Event :=
  Stdout ("Added link " +:+ atom_str (cra1 c) +:+ " - " +:+ atom_str (cra2 c)).

(** A connection joins the two atoms of a contact, in either order. *)
Definition joins (c : Contact) (conn : Connection) : bool :=
  connects (cra_address (cra1 c)) (cra_address (cra2 c)) conn.

(** Two contacts are between the same two atoms, in either order. *)
Definition same_atoms (c c' : Contact) : bool :=
  (address_matches (cra_address (cra1 c')) (cra_address (cra1 c))
   && address_matches (cra_address (cra2 c')) (cra_address (cra2 c)))
  || (address_matches (cra_address (cra1 c')) (cra_address (cra2 c))
      && address_matches (cra_address (cra2 c')) (cra_address (cra1 c))).

Section Vocabulary.
Context `{Externals}.

(** [covalent_r(atom1) + covalent_r(atom2) + 0.5] for a contact, in exact
    arithmetic. *)
Definition exact_threshold (c : Contact) : Q :=
  (covalent_r (element (cra_atom (cra1 c)))
   + covalent_r (element (cra_atom (cra2 c))) + (1 # 2))%Q.

(** The same as the callback computes it: the two radii added in single
    precision, 0.5 added in double precision. *)
Definition bond_threshold (c : Contact) : Q :=
  double_add (float_add (covalent_r (element (cra_atom (cra1 c))))
                        (covalent_r (element (cra_atom (cra2 c)))))
             (1 # 2).

(** The squared distance of a contact is at most the square the callback
    computes of its threshold. *)
Definition within_threshold (c : Contact) : Prop :=
  (dist_sq c <= sq_double (bond_threshold c))%Q.

(** A contact is settled for a structure when the callback would leave
    the structure alone. *)
Definition settled (st : Structure) (c : Contact) : Prop :=
  ~ within_threshold c
  \/ is_Some (find_connection_by_cra st (cra1 c) (cra2 c)).

(** The connections added for the accepted contacts, the counter having
    started at [k]. *)
Definition added (k : Z) (accepted : list Contact) : list Connection :=
  imap (fun i c => Src.new_connection (Nat.iter (S i) int_incr k) c) accepted.

(** The calls the contact search makes to the callback of
    [assign_connections]. *)
Definition link_contacts (model : Model) (st : Structure) : list Contact :=
  for_each_contact {| search_radius := 7 # 2; ignore := AdjacentResidues |}
                   model (neighbor_search model (cell st) 5).

End Vocabulary.

(** ** A small world to run the program on *)

Module Example.

Definition dist2 (a b : Q * Q * Q) : Q :=
  let '(x1, y1, z1) := a in
  let '(x2, y2, z2) := b in
  (sq (x1 - x2) + sq (y1 - y2) + sq (z1 - z2))%Q.

(** Every atom of the model with its mark, in traversal order. *)
Definition marks (model : Model) : list (AtomIdx * Atom) :=
  mjoin (imap (fun ci ch =>
    mjoin (imap (fun ri res =>
      imap (fun ai at_ =>
              ({| chain_idx := ci; residue_idx := ri; atom_idx := ai |}, at_))
           (atoms res))
      (residues ch)))
    (chains model)).

Fixpoint pairs {A} (l : list A) : list (A * A) :=
  match l with
  | [] => []
  | x :: l' => map (pair x) l' ++ pairs l'
  end.

(** A spatial index without symmetry mates: every unordered pair of atoms
    within the radius, once, image 0. *)
Definition direct_search (model : Model) (_ : UnitCell) (radius : Q)
  : list NeighborPair :=
  omap (fun '((m1, a1), (m2, a2)) =>
          let d := dist2 (pos a1) (pos a2) in
          if Qle_bool d (sq radius)
          then Some {| np_first := m1; np_second := m2;
                       np_image_idx := 0; np_dist_sq := d |}
          else None)
       (pairs (marks model)).

(** Square root to six decimals. *)
Definition sqrt6 (q : Q) : Q :=
  Qmake (Z.sqrt (Qnum q * 1000000000000 / Zpos (Qden q))) 1000000.

(** The covalent radii of sulfur, carbon, nitrogen and hydrogen as the
    [float]s nearest to 1.05, 0.73, 0.71 and 0.31; 0.75 for the rest. *)
Definition radius (el : string) : Q :=
  if String.eqb el "S" then 4404019 # 4194304
  else if String.eqb el "C" then 1530921 # 2097152
  else if String.eqb el "N" then 11911823 # 16777216
  else if String.eqb el "H" then 5200937 # 16777216
  else 3 # 4.

#[export] Instance externals : Externals := {|
  covalent_r := radius;
  sqrt := sqrt6;
  neighbor_search := direct_search;
  make_chemcomp_with_restraints := fun res =>
    {| cc_name := res_name res;
       cc_atoms := atom_name <$> atoms res;
       cc_bonds := [] |}
|}.

Definition atom_at (name el : string) (x : Q) : Atom :=
  {| atom_name := name; element := el; pos := (x, 0, 0)%Q |}.

(** Chain A: CYS 1, GLY 2, ALA 3, CYS 4 along the x axis; the two sulfurs
    are 2 apart, GLY's nitrogen is 1 from the first sulfur. *)
Definition chainA : Chain :=
  {| chain_name := "A";
     residues :=
       [ {| res_name := "CYS"; seqid := 1; atoms := [atom_at "SG" "S" 0] |};
         {| res_name := "GLY"; seqid := 2; atoms := [atom_at "N" "N" 1] |};
         {| res_name := "ALA"; seqid := 3; atoms := [atom_at "CA" "C" 7] |};
         {| res_name := "CYS"; seqid := 4; atoms := [atom_at "SG" "S" 2] |} ] |}.

Definition model0 : Model := {| chains := [chainA] |}.

Definition unit_cell : UnitCell :=
  {| cell_abc := (100, 100, 100)%Q; cell_angles := (90, 90, 90)%Q |}.

Definition st0 : Structure :=
  {| cell := unit_cell; models := [model0]; connections := [] |}.

(** The two sulfurs as a contact reported at squared distance [d2];
    their threshold is [1.05f + 1.05f + 0.5], which no rounding
    changes. *)
Definition sulfur (num : Z) (x : Q) : CRA :=
  {| cra_chain := chainA;
     cra_residue := {| res_name := "CYS"; seqid := num;
                       atoms := [atom_at "SG" "S" x] |};
     cra_atom := atom_at "SG" "S" x |}.

Definition contact_SS (d2 : Q) : Contact :=
  {| cra1 := sulfur 1 0; cra2 := sulfur 4 2; image_idx := 0; dist_sq := d2 |}.

(** The neighbour pair of the adjacent residues CYS 1 and GLY 2. *)
Definition pair_CYS_GLY : NeighborPair :=
  {| np_first := {| chain_idx := 0; residue_idx := 0; atom_idx := 0 |};
     np_second := {| chain_idx := 0; residue_idx := 1; atom_idx := 0 |};
     np_image_idx := 0; np_dist_sq := 1 |}.

(** A structure whose file already records a link named [added1]. *)
Definition st_named : Structure :=
  {| cell := unit_cell; models := [model0];
     connections :=
       [ {| conn_name := "added1"; conn_type := MetalC; asu := Same;
            partner1 := {| addr_chain := "A"; addr_res_name := "ALA";
                           addr_seqid := 3; addr_atom := "CA" |};
            partner2 := {| addr_chain := "A"; addr_res_name := "GLY";
                           addr_seqid := 2; addr_atom := "N" |};
            reported_distance := 6 |} ] |}.

(** Two atoms in different chains, the first at the origin. *)
Definition two_atoms (el1 el2 : string) (p : Q * Q * Q) : Model :=
  {| chains :=
       [ {| chain_name := "A";
            residues := [ {| res_name := "LIG"; seqid := 1;
                             atoms := [ {| atom_name := "X1"; element := el1;
                                           pos := (0, 0, 0)%Q |} ] |} ] |};
         {| chain_name := "B";
            residues := [ {| res_name := "LIG"; seqid := 1;
                             atoms := [ {| atom_name := "X2"; element := el2;
                                           pos := p |} ] |} ] |} ] |}.

Definition structure_of (model : Model) : Structure :=
  {| cell := unit_cell; models := [model]; connections := [] |}.

(** A carbon and a nitrogen at squared distance 15785683 / 2^22, about
    1.9400000286 squared, and a carbon and a hydrogen at squared distance
    9947211 / 2^22, about 1.5399999716 squared; coordinates and squared
    distances are single-precision values. *)
Definition model_CN : Model :=
  two_atoms "C" "N" (3973 # 2048, 27 # 2048, 15 # 2048)%Q.

Definition model_CH : Model :=
  two_atoms "C" "H" (3145 # 2048, 235 # 2048, 31 # 2048)%Q.

End Example.

Module ExampleRun.

Definition plain (name : string) (num : Z) (natoms : nat) : Residue :=
  {| res_name := name; seqid := num;
     atoms := replicate natoms (Example.atom_at "X" "C" 0) |}.

(** Residues ALA, ALA, LIG, XYZ and three more LIG of 5, 8 and 3 atoms. *)
Definition model0 : Model :=
  {| chains :=
       [ {| chain_name := "A";
            residues := [plain "ALA" 1 5; plain "ALA" 2 5; plain "LIG" 3 2;
                         plain "XYZ" 4 4] |};
         {| chain_name := "B";
            residues := [plain "LIG" 1 5; plain "LIG" 2 8; plain "LIG" 3 3;
                         plain "LIG" 4 8] |} ] |}.

Definition st : Structure :=
  {| cell := Example.unit_cell; models := [model0]; connections := [] |}.

Definition comp (name : string) (atom_ids : list string) : ChemComp :=
  {| cc_name := name; cc_atoms := atom_ids; cc_bonds := [] |}.

Definition LIG_user : ChemComp := comp "LIG" ["C1"; "C2"].
Definition LIG_installed : ChemComp := comp "LIG" ["C1"; "C2"; "H1"].
Definition ALA_installed : ChemComp := comp "ALA" ["N"; "CA"; "C"; "O"; "CB"].

(** [lig.cif] is the user's library; the installed library knows ALA and
    LIG but not XYZ. *)
Definition world : World :=
  {| getenv := fun var =>
       if String.eqb var "CLIBD_MON" then Some "/opt/monomers" else None;
     read_structure_gz := fun path =>
       if String.eqb path "in.pdb" then Some (st, []) else None;
     read_cif_gz := fun path =>
       if String.eqb path "lig.cif" then Some [LIG_user] else None;
     monomer_source := fun _ name =>
       if String.eqb name "ALA" then Some ALA_installed
       else if String.eqb name "LIG" then Some LIG_installed
       else None |}.

Definition options (auto_ligand : option bool) : Options :=
  {| opt_monomers := None;
     opt_libin := ["lig.cif"];
     opt_libin2 := [];
     opt_auto_cis := None;
     opt_auto_link := None;
     opt_auto_ligand := auto_ligand;
     opt_verbose := false;
     input := "in.pdb";
     output := "out.crd" |}.

End ExampleRun.

(** ** Vocabulary of the further properties *)

Definition is_stderr (e : Event) : bool :=
  match e with
  | Stderr _ => true
  | _ => false
  end.

(** Nothing in the trace went to the error stream. *)
Definition quiet (tr : list Event) : Prop :=
  Forall (fun e => is_stderr e = false) tr.

Definition config_error : string := "Set $CLIBD_MON or use option --monomers.".

Definition no_models : string := "No models found in the input file.".

(** A computation that neither returns early nor writes to the error
    stream: it only extends the trace, quietly. *)
Definition orderly {A} (m : M A) : Prop :=
  forall tr c tr', m tr = (c, tr') ->
    (forall code, c <> Returned code)
    /\ exists out, tr' = tr ++ out /\ quiet out.

(** The reads of library files and the questions to the installed
    library, in the order they happen. *)
Definition is_io (e : Event) : bool :=
  match e with
  | ReadCif _ | MonomerQuery _ _ => true
  | _ => false
  end.

Definition io_events (tr : list Event) : list Event :=
  filter (fun e => is_io e = true) tr.

(** The user library arguments that name a file. *)
Definition files (paths : list string) : list string :=
  filter (fun path => path <> "+") paths.

(** Some library among [paths] defines [n]. *)
Definition defined_in (w : World) (st_doc : Document) (paths : list string)
    (n : string) : Prop :=
  exists path doc d,
    path ∈ paths /\ user_doc w st_doc path = Some doc
    /\ d ∈ doc /\ cc_name d = n.

(** The contact with its two atoms exchanged. *)
Definition swapped (c : Contact) : Contact :=
  {| cra1 := cra2 c; cra2 := cra1 c;
     image_idx := image_idx c; dist_sq := dist_sq c |}.

(** What the body of either program can come to: it ends normally or by
    an exception after a quiet trace, or it returns 1 after one line on
    the error stream, which says that the file has no model. *)
Definition body_outcome {A} (c : Control A) (tr' : list Event) : Prop :=
  exists out, quiet out
    /\ (((exists r, c = Normal r) \/ (exists what, c = Thrown what))
        /\ tr' = out
        \/ c = Returned 1 /\ tr' = out ++ [Stderr no_models]).

Definition is_stdout (e : Event) : bool :=
  match e with
  | Stdout _ => true
  | _ => false
  end.

(** The trace without what went to the standard output: the files read,
    the questions to the installed library, the error stream. *)
Definition loud (tr : list Event) : list Event :=
  filter (fun e => is_stdout e = false) tr.

(** The same options without [--verbose]. *)
Definition quietly (p : Options) : Options :=
  {| opt_monomers := opt_monomers p;
     opt_libin := opt_libin p;
     opt_libin2 := opt_libin2 p;
     opt_auto_cis := opt_auto_cis p;
     opt_auto_link := opt_auto_link p;
     opt_auto_ligand := opt_auto_ligand p;
     opt_verbose := false;
     input := input p;
     output := output p |}.

(** Two computations that end alike and differ at most in what they
    print on the standard output, whatever trace each starts from. *)
Definition alike {A} (m1 m2 : M A) : Prop :=
  forall tr1 tr2, exists c out1 out2,
    m1 tr1 = (c, tr1 ++ out1) /\ m2 tr2 = (c, tr2 ++ out2)
    /\ loud out1 = loud out2.

(** * Template selection *)

Lemma foldl_concat {A B} (f : B -> A -> B) (ls : list (list A)) (b : B) :
  foldl (fun acc l => foldl f acc l) b ls = foldl f b (concat ls).
Proof.
  revert b. induction ls as [|l ls IH]; intros b; simpl; [done|].
  by rewrite foldl_app, IH.
Qed.

Lemma find_most_complete_residue_traversal name model :
  find_most_complete_residue name model
  = foldl (visit name) None (all_residues model).
Proof.
  unfold find_most_complete_residue, all_residues.
  rewrite <- foldl_concat. by rewrite foldl_fmap.
Qed.

Lemma most_complete_visit name l r x :
  most_complete name l r -> most_complete name (l ++ [x]) (visit name r x).
Proof.
  intros Hinv. unfold visit.
  destruct (String.eqb_spec (res_name x) name) as [Hname|Hname]; simpl.
  - destruct r as [r0|]; simpl in *.
    + destruct (Nat.ltb_spec (length (atoms r0)) (length (atoms x))) as [Hlt|Hge].
      * destruct Hinv as (i & Hi & Hn & Hmax).
        exists (length l). split; [by rewrite list_lookup_middle|].
        split; [done|]. intros j y Hj Hy.
        destruct (decide (j < length l)%nat) as [Hjl|Hjl].
        -- rewrite lookup_app_l in Hj by done.
           destruct (Hmax j y Hj Hy) as [Hle _]. lia.
        -- apply lookup_lt_Some in Hj as Hj'. rewrite length_app in Hj'. simpl in Hj'.
           assert (j = length l) as -> by lia.
           rewrite list_lookup_middle in Hj by done. inversion Hj; subst. lia.
      * destruct Hinv as (i & Hi & Hn & Hmax).
        exists i. split; [by apply lookup_app_l_Some|]. split; [done|].
        intros j y Hj Hy.
        destruct (decide (j < length l)%nat) as [Hjl|Hjl].
        -- rewrite lookup_app_l in Hj by done. by apply Hmax.
        -- apply lookup_lt_Some in Hj as Hj'. rewrite length_app in Hj'. simpl in Hj'.
           assert (j = length l) as -> by lia.
           rewrite list_lookup_middle in Hj by done. inversion Hj; subst.
           apply lookup_lt_Some in Hi. lia.
    + exists (length l). split; [by rewrite list_lookup_middle|].
      split; [done|]. intros j y Hj Hy.
      destruct (decide (j < length l)%nat) as [Hjl|Hjl].
      * rewrite lookup_app_l in Hj by done.
        exfalso. eapply Hinv; [|done]. by eapply list_elem_of_lookup_2.
      * apply lookup_lt_Some in Hj as Hj'. rewrite length_app in Hj'. simpl in Hj'.
        assert (j = length l) as -> by lia.
        rewrite list_lookup_middle in Hj by done. inversion Hj; subst. lia.
  - destruct r as [r0|]; simpl in *.
    + destruct Hinv as (i & Hi & Hn & Hmax).
      exists i. split; [by apply lookup_app_l_Some|]. split; [done|].
      intros j y Hj Hy.
      destruct (decide (j < length l)%nat) as [Hjl|Hjl].
      * rewrite lookup_app_l in Hj by done. by apply Hmax.
      * apply lookup_lt_Some in Hj as Hj'. rewrite length_app in Hj'. simpl in Hj'.
        assert (j = length l) as -> by lia.
        rewrite list_lookup_middle in Hj by done. inversion Hj; subst. done.
    + intros y [Hy|Hy]%elem_of_app; [by apply Hinv|].
      apply list_elem_of_singleton in Hy. by subst.
Qed.

Lemma most_complete_scan name l :
  most_complete name l (foldl (visit name) None l).
Proof.
  induction l as [|x l IH] using rev_ind.
  - simpl. intros x Hx. by apply elem_of_nil in Hx.
  - rewrite foldl_app. simpl. by apply most_complete_visit.
Qed.

Lemma find_most_complete_residue_scan name model :
  most_complete name (all_residues model)
                (find_most_complete_residue name model).
Proof.
  rewrite find_most_complete_residue_traversal.
  apply most_complete_scan.
Qed.

(** C2: the template chosen for a name is a residue of the model with
    that name whose atom count is largest, and among those of largest atom
    count the first one in chain/residue order; no template is returned
    only when the model has no residue of that name. *)
Theorem find_most_complete_residue_selects (name : string) (model : Model) :
  match find_most_complete_residue name model with
  | None => forall x, x ∈ all_residues model -> res_name x <> name
  | Some r =>
      exists i, all_residues model !! i = Some r /\ res_name r = name /\
        forall j x, all_residues model !! j = Some x -> res_name x = name ->
          (length (atoms x) <= length (atoms r))%nat /\
          (length (atoms x) = length (atoms r) -> (i <= j)%nat)
  end.
Proof.
  rewrite find_most_complete_residue_traversal.
  change (most_complete name (all_residues model)
            (foldl (visit name) None (all_residues model))).
  induction (all_residues model) as [|x l IH] using rev_ind.
  - intros x Hx. by apply elem_of_nil in Hx.
  - rewrite foldl_app. by apply most_complete_visit.
Qed.

(** * Link detection *)

(** ** Rounding *)

Lemma round_compat prec emin q q' :
  (q == q')%Q -> round prec emin q = round prec emin q'.
Proof. intros Hq. unfold round. by rewrite (Qred_complete _ _ Hq). Qed.

Lemma nearest_even_close q :
  (Qabs (inject_Z (nearest_even q) - q) <= 1 # 2)%Q.
Proof.
  pose proof (Qfloor_le q) as Hlo. pose proof (Qlt_floor q) as Hhi.
  rewrite inject_Z_plus in Hhi. change (inject_Z 1) with 1%Q in Hhi.
  apply Qabs_Qle_condition. unfold nearest_even.
  destruct (Qcompare_spec (q - inject_Z (Qfloor q)) (1 # 2)) as [Heq|Hlt|Hgt].
  - destruct (Z.even (Qfloor q));
      rewrite ?inject_Z_plus; change (inject_Z 1) with 1%Q; split; lra.
  - split; lra.
  - rewrite inject_Z_plus. change (inject_Z 1) with 1%Q. split; lra.
Qed.

Lemma pow2_pos (k : Z) : (0 < 2 ^ k)%Q.
Proof. by apply Qpower_0_lt. Qed.

Lemma ilog2_lower q : (0 < q)%Q -> (2 ^ ilog2 q <= q)%Q.
Proof.
  intros Hq. unfold ilog2.
  destruct (Qle_bool _ q) eqn:Hle; [by apply Qle_bool_iff|]. clear Hle.
  destruct q as [n d]. unfold Qnum, Qden.
  assert (0 < n)%Z as Hn.
  { unfold Qlt in Hq. simpl in Hq. lia. }
  destruct (Z.log2_spec n Hn) as [Hn1 _].
  destruct (Z.log2_spec (Z.pos d) (Pos2Z.is_pos d)) as [_ Hd2].
  pose proof (Z.log2_nonneg n) as Ha.
  pose proof (Z.log2_nonneg (Z.pos d)) as Hb.
  replace (Z.log2 n - Z.log2 (Z.pos d) - 1)%Z
    with (Z.log2 n - Z.succ (Z.log2 (Z.pos d)))%Z by lia.
  rewrite Qpower_minus by done.
  assert (2 ^ Z.log2 n == inject_Z (2 ^ Z.log2 n))%Q as ->.
  { symmetry. by apply (Zpower_Qpower 2). }
  assert (2 ^ Z.succ (Z.log2 (Z.pos d))
          == inject_Z (2 ^ Z.succ (Z.log2 (Z.pos d))))%Q as ->.
  { symmetry. apply (Zpower_Qpower 2). lia. }
  set (a := (2 ^ Z.log2 n)%Z) in *.
  set (b := (2 ^ Z.succ (Z.log2 (Z.pos d)))%Z) in *.
  assert (0 < b)%Z as Hbpos by lia.
  assert (0 < a)%Z as Hapos by (unfold a; apply Z.pow_pos_nonneg; lia).
  apply Qle_shift_div_r; [unfold Qlt; simpl; lia|].
  unfold Qle, Qmult. simpl. nia.
Qed.

Lemma ilog2_lt q m : (0 < q)%Q -> (q < 2 ^ m)%Q -> (ilog2 q < m)%Z.
Proof.
  intros Hq Hm. apply (Qpower_lt_compat_l_inv 2); [|done].
  eapply Qle_lt_trans; [by apply ilog2_lower|done].
Qed.

Lemma scaled_close e q :
  (Qabs (inject_Z (nearest_even (q / 2 ^ e)) * 2 ^ e - q) <= (1 # 2) * 2 ^ e)%Q.
Proof.
  pose proof (pow2_pos e) as Hepos.
  pose proof (nearest_even_close (q / 2 ^ e)) as Hnear.
  set (n := inject_Z (nearest_even (q / 2 ^ e))) in *.
  assert (n * 2 ^ e - q == (n - q / 2 ^ e) * 2 ^ e)%Q as ->.
  { field. lra. }
  rewrite Qabs_Qmult, (Qabs_pos (2 ^ e)) by lra.
  apply Qmult_le_compat_r; [done|lra].
Qed.

(** Rounding moves a number below [2 ^ m] in size by at most half a unit
    in the last place of that size. *)
Lemma round_close prec emin q m :
  (Qabs q < 2 ^ m)%Q ->
  (Qabs (round prec emin q - q) <= (1 # 2) * 2 ^ Z.max (m - prec) emin)%Q.
Proof.
  intros Hm. unfold round.
  pose proof (pow2_pos (Z.max (m - prec) emin)) as Hpos.
  pose proof (Qred_correct q) as Hred.
  destruct (Qeq_bool (Qred q) 0) eqn:Hz.
  - apply Qeq_bool_iff in Hz. apply Qabs_Qle_condition. split; lra.
  - apply Qeq_bool_neq in Hz.
    set (e := Z.max (ilog2 (Qabs (Qred q)) - (prec - 1)) emin).
    assert (e <= Z.max (m - prec) emin)%Z as He.
    { assert (ilog2 (Qabs (Qred q)) < m)%Z; [|lia].
      apply ilog2_lt; [|by rewrite Hred].
      apply Qabs_case; intros Hs; lra. }
    pose proof (Qpower_le_compat_l 2 _ _ He) as Hmono.
    pose proof (scaled_close e (Qred q)) as Hnear.
    pose proof (Qred_correct (inject_Z (nearest_even (Qred q / 2 ^ e)) * 2 ^ e))
      as Hred'.
    apply Qabs_Qle_condition in Hnear. apply Qabs_Qle_condition.
    split; lra.
Qed.

(** For radii that sum to less than 8, the square the callback computes
    lies between the squares of the exact threshold less and plus
    0.000001. *)
Lemma computed_threshold_close r1 r2 :
  (0 <= r1 + r2)%Q -> (r1 + r2 < 8)%Q ->
  let computed := sq_double (double_add (float_add r1 r2) (1 # 2)) in
  (sq (r1 + r2 + (1 # 2) - (1 # 1000000)) <= computed)%Q
  /\ (computed < sq (r1 + r2 + (1 # 2) + (1 # 1000000)))%Q.
Proof.
  intros Hlo Hhi.
  set (f := float_add r1 r2). set (t := double_add f (1 # 2)).
  assert (Qabs (f - (r1 + r2)) <= 1 # 4194304)%Q as Hf.
  { apply (round_close 24 (-149) (r1 + r2) 3).
    apply Qabs_Qlt_condition. change (2 ^ 3)%Q with 8%Q. split; lra. }
  apply Qabs_Qle_condition in Hf.
  assert (Qabs (t - (f + (1 # 2))) <= 1 # 1125899906842624)%Q as Ht.
  { apply (round_close 53 (-1074) (f + (1 # 2)) 4).
    apply Qabs_Qlt_condition. change (2 ^ 4)%Q with 16%Q. split; lra. }
  apply Qabs_Qle_condition in Ht.
  assert (Qabs (sq_double t - t * t) <= 1 # 70368744177664)%Q as Hs.
  { apply (round_close 53 (-1074) (t * t) 8).
    apply Qabs_Qlt_condition. change (2 ^ 8)%Q with 256%Q. split; nra. }
  apply Qabs_Qle_condition in Hs.
  simpl. fold f. fold t. unfold sq. split; nra.
Qed.

(** ** The callback and the loop *)

Section LinkDetection.
Context `{Externals}.

Lemma for_each_cons {A S} (x : A) (xs : list A) (body : A -> S -> M S)
    (s : S) (tr : list Event) :
  for_each (x :: xs) body s tr
  = match body x s tr with
    | (Normal s', tr') => for_each xs body s' tr'
    | (Returned code, tr') => (Returned code, tr')
    | (Thrown what, tr') => (Thrown what, tr')
    end.
Proof. reflexivity. Qed.

Lemma Qgtb_true a b : Qgtb a b = true <-> ~ (a <= b)%Q.
Proof.
  unfold Qgtb. rewrite negb_true_iff, <- Qle_bool_iff.
  destruct (Qle_bool a b); naive_solver.
Qed.

Lemma Qgtb_false a b : Qgtb a b = false <-> (a <= b)%Q.
Proof.
  unfold Qgtb. rewrite negb_false_iff. apply Qle_bool_iff.
Qed.

Lemma on_contact_reject c st k tr :
  ~ within_threshold c ->
  Src.on_contact c (st, k) tr = (Normal (st, k), tr).
Proof.
  unfold within_threshold, bond_threshold. intros Hfar.
  apply Qgtb_true in Hfar. unfold Src.on_contact. by rewrite Hfar.
Qed.

Lemma on_contact_known c st k tr :
  is_Some (find_connection_by_cra st (cra1 c) (cra2 c)) ->
  Src.on_contact c (st, k) tr = (Normal (st, k), tr).
Proof.
  intros [conn Hconn]. unfold Src.on_contact.
  destruct (Qgtb _ _); [done|]. by rewrite Hconn.
Qed.

Lemma on_contact_accept c st k tr :
  within_threshold c ->
  find_connection_by_cra st (cra1 c) (cra2 c) = None ->
  Src.on_contact c (st, k) tr
  = (Normal (Src.push_back (Src.new_connection (int_incr k) c) st, int_incr k),
     tr ++ [added_link c]).
Proof.
  unfold within_threshold, bond_threshold. intros Hnear Hnew.
  apply Qgtb_false in Hnear. unfold Src.on_contact. by rewrite Hnear, Hnew.
Qed.

(** [connects] only looks at partners, and a connection made from a
    contact links that contact's atoms. *)
Lemma address_matches_refl a : address_matches a a = true.
Proof.
  unfold address_matches.
  by rewrite !String.eqb_refl, Z.eqb_refl.
Qed.

Lemma connects_new_connection k c :
  connects (cra_address (cra1 c)) (cra_address (cra2 c))
           (Src.new_connection k c) = true.
Proof.
  unfold connects, Src.new_connection, cra_address; simpl.
  by rewrite !address_matches_refl.
Qed.

Lemma address_matches_spec a b :
  address_matches a b = true
  <-> lowercase (addr_chain a) = lowercase (addr_chain b)
      /\ lowercase (addr_res_name a) = lowercase (addr_res_name b)
      /\ addr_seqid a = addr_seqid b
      /\ lowercase (addr_atom a) = lowercase (addr_atom b).
Proof.
  unfold address_matches.
  rewrite !andb_true_iff, !String.eqb_eq, Z.eqb_eq. tauto.
Qed.

Lemma joins_new_connection k c c' :
  joins c (Src.new_connection k c') = same_atoms c c'.
Proof. reflexivity. Qed.

(** A connection between the atoms of one contact is a connection
    between the atoms of any contact of the same two atoms. *)
Lemma same_atoms_joins c c' conn :
  same_atoms c c' = true -> joins c' conn = true -> joins c conn = true.
Proof.
  unfold same_atoms, joins, connects.
  rewrite !orb_true_iff, !andb_true_iff, !address_matches_spec.
  intros [[(?&?&?&?) (?&?&?&?)]|[(?&?&?&?) (?&?&?&?)]]
         [[(?&?&?&?) (?&?&?&?)]|[(?&?&?&?) (?&?&?&?)]];
    [left|right|right|left]; repeat split; congruence.
Qed.

Lemma find_connection_is_Some st a b :
  is_Some (find_connection_by_cra st a b) <->
  exists conn, conn ∈ connections st
               /\ connects (cra_address a) (cra_address b) conn = true.
Proof.
  unfold find_connection_by_cra. split.
  - intros [conn Hconn]. apply find_some in Hconn as [Hin Hc].
    exists conn. by rewrite list_elem_of_In.
  - intros (conn & Hin & Hc).
    destruct (find _ _) eqn:Hfind; [done|].
    rewrite list_elem_of_In in Hin.
    pose proof (find_none _ _ Hfind conn Hin) as Hf. congruence.
Qed.

Lemma find_connection_mono st st' a b :
  (forall conn, conn ∈ connections st -> conn ∈ connections st') ->
  is_Some (find_connection_by_cra st a b) ->
  is_Some (find_connection_by_cra st' a b).
Proof.
  intros Hsub. rewrite !find_connection_is_Some.
  intros (conn & Hin & Hc). exists conn. auto.
Qed.

Lemma settled_mono st st' c :
  (forall conn, conn ∈ connections st -> conn ∈ connections st') ->
  settled st c -> settled st' c.
Proof.
  intros Hsub [Hfar|Hknown]; [by left|right].
  by eapply find_connection_mono.
Qed.

Lemma for_each_settled contacts st k tr :
  Forall (settled st) contacts ->
  for_each contacts Src.on_contact (st, k) tr = (Normal (st, k), tr).
Proof.
  induction 1 as [|c cs Hc _ IH]; [done|].
  rewrite for_each_cons.
  destruct Hc as [Hfar|Hknown].
  - by rewrite on_contact_reject.
  - by rewrite on_contact_known.
Qed.

Lemma added_cons k c accepted :
  added k (c :: accepted)
  = Src.new_connection (int_incr k) c :: added (int_incr k) accepted.
Proof.
  unfold added. rewrite imap_cons. simpl. f_equal.
  apply imap_ext. intros i x _. simpl. f_equal.
  by rewrite <- !Nat.iter_succ, !Nat.iter_succ_r.
Qed.

(** The whole loop over the contacts. *)
Lemma for_each_on_contact contacts st k tr :
  exists accepted st' tr',
    for_each contacts Src.on_contact (st, k) tr
    = (Normal (st', Nat.iter (length accepted) int_incr k), tr')
    /\ cell st' = cell st /\ models st' = models st
    /\ connections st' = connections st ++ added k accepted
    /\ tr' = tr ++ (added_link <$> accepted)
    /\ accepted `sublist_of` contacts
    /\ Forall within_threshold accepted
    /\ Forall (settled st') contacts.
Proof.
  revert st k tr. induction contacts as [|c cs IH]; intros st k tr.
  - exists [], st, tr. simpl. rewrite !app_nil_r. repeat split; by constructor.
  - rewrite for_each_cons.
    assert (settled st c
            \/ (within_threshold c
                /\ find_connection_by_cra st (cra1 c) (cra2 c) = None))
      as [Hset|[Hnear Hnew]].
    { destruct (Qlt_le_dec (sq_double (bond_threshold c)) (dist_sq c)) as [Hlt|Hle].
      - left. left. by apply Qlt_not_le.
      - destruct (find_connection_by_cra st (cra1 c) (cra2 c)) eqn:Hf.
        + left. right. rewrite Hf. by eexists.
        + by right. }
    + assert (Src.on_contact c (st, k) tr = (Normal (st, k), tr)) as ->.
      { destruct Hset; [by apply on_contact_reject|by apply on_contact_known]. }
      destruct (IH st k tr) as (acc & st' & tr' & Hrun & Hcell & Hmod & Hconn
                                & Htr & Hsub & Hnear & Hset').
      exists acc, st', tr'. repeat split; try done.
      * by apply sublist_cons.
      * constructor; [|done]. eapply settled_mono; [|done].
        intros conn Hin. rewrite Hconn. apply elem_of_app. by left.
    + rewrite on_contact_accept by done.
      set (st1 := Src.push_back (Src.new_connection (int_incr k) c) st).
      destruct (IH st1 (int_incr k) (tr ++ [added_link c]))
        as (acc & st' & tr' & Hrun & Hcell & Hmod & Hconn & Htr & Hsub & Hnear' & Hset').
      exists (c :: acc), st', tr'. repeat split; try done.
      * rewrite Hrun. simpl length. by rewrite Nat.iter_succ_r.
      * rewrite Hconn, added_cons. subst st1. simpl. by rewrite <- app_assoc.
      * rewrite Htr. simpl. by rewrite <- app_assoc.
      * by apply sublist_skip.
      * by constructor.
      * constructor; [|done]. right. apply find_connection_is_Some.
        exists (Src.new_connection (int_incr k) c). split.
        -- rewrite Hconn. apply elem_of_app. left. subst st1. simpl.
           apply elem_of_app. right. by apply list_elem_of_singleton.
        -- apply connects_new_connection.
Qed.

End LinkDetection.

Section LinkDetectionClaims.
Context `{Externals}.

Lemma assign_connections_run model st tr :
  exists accepted st',
    Src.assign_connections model st tr
    = (Normal st', tr ++ (added_link <$> accepted))
    /\ cell st' = cell st /\ models st' = models st
    /\ connections st' = connections st ++ added 0 accepted
    /\ accepted `sublist_of` link_contacts model st
    /\ Forall within_threshold accepted
    /\ Forall (settled st') (link_contacts model st).
Proof.
  destruct (for_each_on_contact (link_contacts model st) st 0 tr)
    as (acc & st' & tr' & Hrun & Hcell & Hmod & Hconn & Htr & Hsub & Hnear & Hset).
  exists acc, st'. split; [|done].
  unfold Src.assign_connections, mbind, M_bind, bind.
  fold (link_contacts model st). rewrite Hrun. by subst tr'.
Qed.

(** C3, as the code has it: the threshold is the one the callback
    computes, the two radii added in single precision, 0.5 added and the
    square taken in double precision.  Link detection completes, and for
    any pair of atoms it visits that the structure did not connect, a new
    connection joins the pair exactly when one of its visits of the pair
    reports a squared distance of at most that square; every new
    connection is built from such a visit.  For radii that sum to less
    than 8 the computed threshold is within 0.000001 of
    [covalent_r(atom1) + covalent_r(atom2) + 0.5]: a pair at a distance up
    to that sum less 0.000001 passes the test, and a pair at that sum plus
    0.000001 or more, so at plus 0.00001, does not. *)
Theorem link_threshold (model : Model) (st : Structure) (tr : list Event) :
  exists st' tr' new,
    Src.assign_connections model st tr = (Normal st', tr')
    /\ connections st' = connections st ++ new
    /\ (forall c, c ∈ link_contacts model st ->
        (forall conn, conn ∈ connections st -> joins c conn = false) ->
        (exists conn, conn ∈ new /\ joins c conn = true)
        <-> (exists c', c' ∈ link_contacts model st
                        /\ same_atoms c c' = true /\ within_threshold c'))
    /\ (forall conn, conn ∈ new ->
        exists c, c ∈ link_contacts model st /\ within_threshold c
                  /\ partner1 conn = cra_address (cra1 c)
                  /\ partner2 conn = cra_address (cra2 c))
    /\ (forall c, (1 # 2 <= exact_threshold c)%Q ->
        (exact_threshold c < 17 # 2)%Q ->
        (forall d, (0 <= d)%Q -> (d <= exact_threshold c - (1 # 1000000))%Q ->
                   (dist_sq c == sq d)%Q -> within_threshold c)
        /\ (forall d, (exact_threshold c + (1 # 1000000) <= d)%Q ->
                      (dist_sq c == sq d)%Q -> ~ within_threshold c)).
Proof.
  destruct (assign_connections_run model st tr)
    as (acc & st' & Hrun & _ & _ & Hconn & Hsub & Hnear & Hset).
  rewrite Forall_forall in Hnear. rewrite Forall_forall in Hset.
  assert (Horigin : forall conn, conn ∈ added 0 acc ->
            exists k c, c ∈ acc /\ conn = Src.new_connection k c).
  { intros conn Hin. unfold added in Hin.
    apply elem_of_lookup_imap_1 in Hin as (i & c & -> & Hc).
    apply list_elem_of_lookup_2 in Hc. eauto. }
  exists st', (tr ++ (added_link <$> acc)), (added 0 acc).
  split; [done|]. split; [done|]. split; [|split].
  - intros c Hc Hfresh. split.
    + intros (conn & Hin & Hjoin).
      apply Horigin in Hin as (k & c' & Hc' & ->).
      exists c'. split; [by eapply elem_of_sublist|].
      split; [by rewrite <- (joins_new_connection k)|by apply Hnear].
    + intros (c' & Hc' & Hsame & Hwithin).
      destruct (Hset c' Hc') as [Hfar|Hknown]; [done|].
      apply find_connection_is_Some in Hknown as (conn & Hin & Hjoin).
      exists conn. split; [|by eapply same_atoms_joins].
      rewrite Hconn in Hin. apply elem_of_app in Hin as [Hin|Hin]; [|done].
      pose proof (same_atoms_joins c c' conn Hsame Hjoin) as Htrue.
      rewrite (Hfresh conn Hin) in Htrue. done.
  - intros conn Hin. apply Horigin in Hin as (k & c & Hc & ->).
    exists c. split; [by eapply elem_of_sublist|]. split; [by apply Hnear|done].
  - intros c Hlo Hhi. unfold exact_threshold in Hlo, Hhi.
    destruct (computed_threshold_close
                (covalent_r (element (cra_atom (cra1 c))))
                (covalent_r (element (cra_atom (cra2 c)))))
      as [Hbelow Habove]; [lra..|].
    unfold within_threshold, bond_threshold, exact_threshold.
    unfold sq in *. split.
    + intros d Hd0 Hd Hsq. rewrite Hsq. nra.
    + intros d Hd Hsq. rewrite Hsq. nra.
Qed.

(** C4: link detection always completes, and a second run on the same
    model and cell, given at least the connections the first run left,
    adds no connection, prints nothing and returns its structure
    unchanged. *)
Theorem assign_connections_idempotent (model : Model) (st : Structure)
    (tr : list Event) :
  exists st1 tr1,
    Src.assign_connections model st tr = (Normal st1, tr1)
    /\ cell st1 = cell st
    /\ forall st2 tr2,
        cell st2 = cell st ->
        (forall conn, conn ∈ connections st1 -> conn ∈ connections st2) ->
        Src.assign_connections model st2 tr2 = (Normal st2, tr2).
Proof.
  destruct (assign_connections_run model st tr)
    as (acc & st1 & Hrun & Hcell & Hmod & Hconn & Hsub & Hnear & Hset).
  exists st1, (tr ++ (added_link <$> acc)). split; [done|]. split; [done|].
  intros st2 tr2 Hcell2 Hincl.
  unfold Src.assign_connections, mbind, M_bind, bind.
  fold (link_contacts model st2).
  assert (link_contacts model st2 = link_contacts model st) as ->.
  { unfold link_contacts. by rewrite Hcell2. }
  rewrite for_each_settled; [done|].
  eapply Forall_impl; [exact Hset|]. intros c Hc.
  by eapply settled_mono.
Qed.

Lemma contact_of_adjacent model p :
  adjacent_residues (np_first p) (np_second p) = true ->
  contact_of {| search_radius := 7 # 2; ignore := AdjacentResidues |} model p
  = None.
Proof.
  intros Hadj. unfold contact_of, ignored. simpl. rewrite Hadj.
  by rewrite andb_false_r.
Qed.

Lemma link_contacts_origin model st c :
  c ∈ link_contacts model st ->
  exists p, p ∈ neighbor_search model (cell st) 5
    /\ adjacent_residues (np_first p) (np_second p) = false
    /\ (np_dist_sq p <= sq (7 # 2))%Q
    /\ to_cra model (np_first p) = Some (cra1 c)
    /\ to_cra model (np_second p) = Some (cra2 c)
    /\ image_idx c = np_image_idx p /\ dist_sq c = np_dist_sq p.
Proof.
  unfold link_contacts, for_each_contact. rewrite list_elem_of_omap.
  intros (p & Hp & Hc). exists p. split; [done|].
  unfold contact_of in Hc.
  destruct (Qle_bool _ _) eqn:Hle; simpl in Hc; [|done].
  destruct (ignored _ p) eqn:Hig; simpl in Hc; [done|].
  unfold ignored in Hig. simpl in Hig.
  destruct (to_cra model (np_first p)) as [a|]; simpl in Hc; [|done].
  destruct (to_cra model (np_second p)) as [b|]; simpl in Hc; [|done].
  inversion Hc; subst; simpl. apply Qle_bool_iff in Hle. done.
Qed.

(** C5: the callback is never invoked for two atoms in sequentially
    adjacent residues of one chain, whatever their distance, and every
    connection that link detection appends was built from a neighbour pair
    whose residues are not adjacent in this sense. *)
Theorem adjacent_residues_never_linked (model : Model) (st : Structure)
    (tr : list Event) :
  (forall p, adjacent_residues (np_first p) (np_second p) = true ->
     contact_of {| search_radius := 7 # 2; ignore := AdjacentResidues |}
                model p = None)
  /\ exists st' tr' new,
      Src.assign_connections model st tr = (Normal st', tr')
      /\ connections st' = connections st ++ new
      /\ forall conn, conn ∈ new ->
          exists p a b,
            p ∈ neighbor_search model (cell st) 5
            /\ adjacent_residues (np_first p) (np_second p) = false
            /\ to_cra model (np_first p) = Some a
            /\ to_cra model (np_second p) = Some b
            /\ partner1 conn = cra_address a
            /\ partner2 conn = cra_address b.
Proof.
  split; [apply contact_of_adjacent|].
  destruct (assign_connections_run model st tr)
    as (acc & st' & Hrun & Hcell & Hmod & Hconn & Hsub & Hnear & Hset).
  exists st', (tr ++ (added_link <$> acc)), (added 0 acc).
  split; [done|]. split; [done|].
  intros conn Hin. unfold added in Hin.
  apply elem_of_lookup_imap_1 in Hin as (i & c & -> & Hc).
  apply list_elem_of_lookup_2 in Hc.
  pose proof (elem_of_sublist _ _ _ Hc Hsub) as Hc'.
  apply link_contacts_origin in Hc' as (p & Hp & Hadj & _ & Ha & Hb & _).
  exists p, (cra1 c), (cra2 c). done.
Qed.

End LinkDetectionClaims.

Section GeneratedLinks.
Context `{Externals}.

Lemma iter_int_incr (n : nat) (k : Z) :
  (0 <= k)%Z -> (k + Z.of_nat n <= INT_MAX)%Z ->
  Nat.iter n int_incr k = (k + Z.of_nat n)%Z.
Proof.
  unfold int_incr, INT_MAX. intros Hk. induction n as [|n IH]; intros Hn.
  - simpl. lia.
  - assert (Hn' : (k + Z.of_nat n <= 2147483647)%Z) by (clear IH; lia).
    rewrite Nat.iter_succ, (IH Hn'). clear IH.
    destruct (decide _) as [Heq|_]; lia.
Qed.

Lemma length_omap_le {A B} (f : A -> option B) (l : list A) :
  (length (omap f l) <= length l)%nat.
Proof.
  induction l as [|x l IH]; [done|].
  change (omap f (x :: l)) with (match f x with Some y => y :: omap f l | None => omap f l end).
  destruct (f x); simpl; lia.
Qed.

Lemma added_lookup k accepted i conn :
  added k accepted !! i = Some conn ->
  exists c, accepted !! i = Some c
            /\ conn = Src.new_connection (Nat.iter (S i) int_incr k) c.
Proof.
  unfold added. rewrite list_lookup_imap.
  destruct (accepted !! i) as [c|]; simpl; [|done].
  intros [= <-]. by exists c.
Qed.

(** C6, as the code has it: every connection that link detection appends
    is covalent, is flagged [Same] when the image index is 0 and
    [Different] otherwise, joins the addresses of the two atoms of its
    contact, reports the square root of the contact's squared distance,
    and is named [added] followed by its rank among the connections of
    this run; these names differ from one another, and from the name of
    an earlier connection unless that one is itself named [added<k>]. *)
Theorem new_connections_described (model : Model) (st : Structure)
    (tr : list Event) :
  (Z.of_nat (length (neighbor_search model (cell st) 5)) <= INT_MAX)%Z ->
  exists st' tr' accepted new,
    Src.assign_connections model st tr = (Normal st', tr')
    /\ connections st' = connections st ++ new
    /\ accepted `sublist_of` link_contacts model st
    /\ length new = length accepted
    /\ (forall i conn, new !! i = Some conn ->
        exists c, accepted !! i = Some c
          /\ conn_type conn = Covale
          /\ (image_idx c = 0%Z -> asu conn = Same)
          /\ (image_idx c <> 0%Z -> asu conn = Different)
          /\ partner1 conn = cra_address (cra1 c)
          /\ partner2 conn = cra_address (cra2 c)
          /\ reported_distance conn = sqrt (dist_sq c)
          /\ conn_name conn = "added" +:+ to_string (Z.of_nat (S i)))
    /\ NoDup (conn_name <$> new)
    /\ (forall old conn, old ∈ connections st -> conn ∈ new ->
        (forall k : Z, conn_name old <> "added" +:+ to_string k) ->
        conn_name conn <> conn_name old).
Proof.
  intros Hbound.
  destruct (assign_connections_run model st tr)
    as (acc & st' & Hrun & Hcell & Hmod & Hconn & Hsub & Hnear & Hset).
  assert (Hlen : (Z.of_nat (length acc) <= INT_MAX)%Z).
  { apply sublist_length in Hsub.
    pose proof (length_omap_le
      (contact_of {| search_radius := 7 # 2; ignore := AdjacentResidues |} model)
      (neighbor_search model (cell st) 5)) as Hle.
    unfold link_contacts, for_each_contact in Hsub. unfold INT_MAX in *. lia. }
  assert (Hname : forall i conn, added 0 acc !! i = Some conn ->
            exists c, acc !! i = Some c
              /\ conn = Src.new_connection (Z.of_nat (S i)) c).
  { intros i conn Hi. apply added_lookup in Hi as (c & Hc & ->).
    exists c. split; [done|]. f_equal.
    apply lookup_lt_Some in Hc.
    rewrite iter_int_incr by (unfold INT_MAX in *; lia). lia. }
  exists st', (tr ++ (added_link <$> acc)), acc, (added 0 acc).
  split; [done|]. split; [done|]. split; [done|].
  split; [apply length_imap|]. split; [|split].
  - intros i conn Hi. apply Hname in Hi as (c & Hc & ->).
    exists c. split; [done|]. unfold Src.new_connection; simpl.
    split; [done|]. split; [by intros ->|]. split.
    { intros Hne. by apply Z.eqb_neq in Hne as ->. }
    done.
  - apply NoDup_alt. intros i j name.
    rewrite !list_lookup_fmap.
    destruct (added 0 acc !! i) as [ci|] eqn:Hi; simpl; [|done].
    destruct (added 0 acc !! j) as [cj|] eqn:Hj; simpl; [|done].
    apply Hname in Hi as (c1 & _ & ->). apply Hname in Hj as (c2 & _ & ->).
    simpl. intros [= <-] [= Heq].
    apply String.app_inj in Heq. unfold to_string in Heq.
    apply (inj pretty) in Heq. lia.
  - intros old conn _ Hin Hold.
    apply list_elem_of_lookup_1 in Hin as (i & Hi).
    apply Hname in Hi as (c & _ & ->).
    intros Heq. apply (Hold (Z.of_nat (S i))). symmetry. exact Heq.
Qed.

End GeneratedLinks.

(** C6, as the spec states it, fails: the generated name is not checked
    against the names already in the structure.  With a link named
    [added1] read from the input file, the first link found is named
    [added1] too. *)
Lemma generated_name_not_fresh :
  exists st' tr' conn old rest,
    @Src.assign_connections Example.externals Example.model0 Example.st_named []
    = (Normal st', tr')
    /\ connections st' = connections Example.st_named ++ conn :: rest
    /\ old ∈ connections Example.st_named
    /\ conn_name conn = conn_name old.
Proof.
  do 5 eexists. split; [vm_compute; reflexivity|].
  split; [reflexivity|]. split; [apply list_elem_of_here|reflexivity].
Qed.

(** C3, as the spec states it, fails, both ways.  A carbon and a nitrogen
    at a squared distance above the square of
    [covalent_r(C) + covalent_r(N) + 0.5] are linked: the single-precision
    sum of the two radii rounds up.  A carbon and a hydrogen at a squared
    distance below the square of [covalent_r(C) + covalent_r(H) + 0.5]
    are not linked: there the sum rounds down. *)
Lemma threshold_not_exact :
  (exists c st',
     @link_contacts Example.externals Example.model_CN
       (Example.structure_of Example.model_CN) = [c]
     /\ ~ (dist_sq c <= sq (@exact_threshold Example.externals c))%Q
     /\ @Src.assign_connections Example.externals Example.model_CN
          (Example.structure_of Example.model_CN) []
        = (Normal st', [added_link c])
     /\ connections st' = [@Src.new_connection Example.externals 1 c])
  /\ (exists c,
       @link_contacts Example.externals Example.model_CH
         (Example.structure_of Example.model_CH) = [c]
       /\ (dist_sq c <= sq (@exact_threshold Example.externals c))%Q
       /\ @Src.assign_connections Example.externals Example.model_CH
            (Example.structure_of Example.model_CH) []
          = (Normal (Example.structure_of Example.model_CH), [])).
Proof.
  split.
  - eexists. eexists. split; [reflexivity|].
    split; [vm_compute; by intros Hle; apply Hle|].
    split; [vm_compute; reflexivity|reflexivity].
  - eexists. split; [reflexivity|].
    split; [vm_compute; discriminate|vm_compute; reflexivity].
Qed.

(** * Monomer resolution *)

Lemma bind_Normal {A B} (m : M A) (k : A -> M B) (tr : list Event) (b : B)
    (tr' : list Event) :
  mbind (M := M) k m tr = (Normal b, tr') ->
  exists a tr1, m tr = (Normal a, tr1) /\ k a tr1 = (Normal b, tr').
Proof.
  unfold mbind, M_bind, bind.
  destruct (m tr) as [[a|code|what] tr1]; [|done..].
  intros Hk. by exists a, tr1.
Qed.

Lemma when_printf (b : bool) line tr :
  when b (printf line) tr
  = (Normal tt, tr ++ if b then [Stdout line] else []).
Proof. destruct b; simpl; [done|]. by rewrite app_nil_r. Qed.

Lemma installed_queries_app tr1 tr2 :
  installed_queries (tr1 ++ tr2) = installed_queries tr1 ++ installed_queries tr2.
Proof. apply omap_app. Qed.

Lemma installed_queries_when (b : bool) line tr :
  installed_queries (tr ++ if b then [Stdout line] else [])
  = installed_queries tr.
Proof.
  rewrite installed_queries_app. destruct b; simpl; by rewrite app_nil_r.
Qed.

Lemma installed_queries_asked dir names :
  installed_queries (MonomerQuery dir <$> names) = names.
Proof.
  induction names as [|n names IH]; [done|].
  change (installed_queries (MonomerQuery dir <$> n :: names))
    with (n :: installed_queries (MonomerQuery dir <$> names)).
  by rewrite IH.
Qed.

(** *** Insertion never replaces *)

Lemma emplace_lookup name cc monlib n :
  monomers (emplace name cc monlib) !! n
  = match monomers monlib !! n with
    | Some d => Some d
    | None => if decide (name = n) then Some cc else None
    end.
Proof.
  unfold emplace. destruct (monomers monlib !! name) as [d0|] eqn:Hname.
  - destruct (monomers monlib !! n) eqn:Hn; [done|].
    destruct (decide (name = n)); [congruence|done].
  - simpl. rewrite lookup_insert. destruct (decide (name = n)) as [->|].
    + by rewrite Hname.
    + by destruct (monomers monlib !! n).
Qed.

Lemma emplace_subseteq name cc monlib :
  monomers monlib ⊆ monomers (emplace name cc monlib).
Proof.
  apply map_subseteq_spec. intros n d Hn.
  by rewrite emplace_lookup, Hn.
Qed.

Lemma read_monomer_doc_subseteq doc monlib :
  monomers monlib ⊆ monomers (read_monomer_doc doc monlib).
Proof.
  unfold read_monomer_doc. revert monlib.
  induction doc as [|cc doc IH]; intros monlib; simpl; [done|].
  etrans; [apply emplace_subseteq|apply IH].
Qed.

Lemma read_monomer_doc_origin doc monlib n d :
  monomers (read_monomer_doc doc monlib) !! n = Some d ->
  monomers monlib !! n = Some d \/ (d ∈ doc /\ cc_name d = n).
Proof.
  unfold read_monomer_doc. revert monlib.
  induction doc as [|cc doc IH]; intros monlib; simpl; [by left|].
  intros Hd. apply IH in Hd as [Hd|[Hd Hn]].
  - rewrite emplace_lookup in Hd.
    destruct (monomers monlib !! n); [by left|].
    destruct (decide (cc_name cc = n)); [|done].
    right. inversion Hd; subst. split; [apply list_elem_of_here|done].
  - right. split; [by apply list_elem_of_further|done].
Qed.

Lemma read_monomer_doc_defines doc monlib d :
  d ∈ doc -> is_Some (monomers (read_monomer_doc doc monlib) !! cc_name d).
Proof.
  unfold read_monomer_doc. revert monlib.
  induction doc as [|cc doc IH]; intros monlib Hd; simpl.
  - by apply elem_of_nil in Hd.
  - apply elem_of_cons in Hd as [->|Hd]; [|by apply IH].
    assert (is_Some (monomers (emplace (cc_name cc) cc monlib) !! cc_name cc))
      as [d0 Hd0].
    { rewrite emplace_lookup. destruct (monomers monlib !! cc_name cc); [done|].
      by rewrite decide_True. }
    exists d0.
    eapply (lookup_weaken _ _ _ _ Hd0), (read_monomer_doc_subseteq doc).
Qed.

Lemma read_monomer_cif_Normal w path monlib tr monlib' tr' :
  read_monomer_cif w path monlib tr = (Normal monlib', tr') ->
  exists doc, read_cif_gz w path = Some doc
              /\ monlib' = read_monomer_doc doc monlib
              /\ tr' = tr ++ [ReadCif path].
Proof.
  unfold read_monomer_cif. intros (u & tr1 & Hemit & Hread)%bind_Normal.
  inversion Hemit; subst.
  destruct (read_cif_gz w path) as [doc|]; [|done].
  inversion Hread; subst. by exists doc.
Qed.

Lemma read_monomer_lib_run w dir names monlib tr :
  exists monlib' ok error,
    read_monomer_lib w dir names monlib tr
    = (Normal (monlib', ok, error), tr ++ (MonomerQuery dir <$> names))
    /\ monomers monlib ⊆ monomers monlib'
    /\ (forall n d, monomers monlib' !! n = Some d ->
        monomers monlib !! n = Some d
        \/ (n ∈ names /\ monomer_source w dir n = Some d))
    /\ (ok = true <-> forall n, n ∈ names -> is_Some (monomer_source w dir n)).
Proof.
  revert monlib tr. induction names as [|name rest IH]; intros monlib tr.
  - exists monlib, true, "". simpl. rewrite app_nil_r.
    split; [done|]. split; [done|]. split; [by left|].
    split; [|done]. intros _ n Hn. by apply elem_of_nil in Hn.
  - simpl. unfold mbind at 1, M_bind at 1, bind at 1. simpl.
    destruct (monomer_source w dir name) as [cc|] eqn:Hsrc.
    + destruct (IH (emplace name cc monlib) (tr ++ [MonomerQuery dir name]))
        as (ml & ok & err & Hrun & Hsub & Horig & Hok).
      exists ml, ok, err. rewrite Hrun, <- app_assoc. split; [done|]. split.
      { etrans; [apply emplace_subseteq|done]. }
      split.
      * intros n d Hd. apply Horig in Hd as [Hd|[Hn Hd]].
        -- rewrite emplace_lookup in Hd.
           destruct (monomers monlib !! n); [by left|].
           destruct (decide (name = n)) as [->|]; [|done].
           right. split; [apply list_elem_of_here|congruence].
        -- right. split; [by apply list_elem_of_further|done].
      * rewrite Hok. split.
        -- intros Hall n [->|Hn]%elem_of_cons; [by rewrite Hsrc|by apply Hall].
        -- intros Hall n Hn. apply Hall. by apply list_elem_of_further.
    + destruct (IH monlib (tr ++ [MonomerQuery dir name]))
        as (ml & ok & err & Hrun & Hsub & Horig & Hok).
      exists ml, false, ("Monomer not in the library: " +:+ name +:+ ". " +:+ err).
      unfold mbind, M_bind, bind. rewrite Hrun, <- app_assoc.
      split; [done|]. split; [done|]. split.
      * intros n d Hd. apply Horig in Hd as [Hd|[Hn Hd]]; [by left|].
        right. split; [by apply list_elem_of_further|done].
      * split; [done|]. intros Hall.
        destruct (Hall name) as [cc Hcc]; [apply list_elem_of_here|congruence].
Qed.

Section Resolution.
Context `{Externals}.

Lemma read_user_file_Normal w verbose st_doc path monlib tr monlib' tr' :
  Prog.read_user_file w verbose st_doc path monlib tr = (Normal monlib', tr') ->
  exists doc, user_doc w st_doc path = Some doc
              /\ monlib' = read_monomer_doc doc monlib
              /\ installed_queries tr' = installed_queries tr.
Proof.
  unfold Prog.read_user_file, user_doc.
  intros (u & tr1 & Hwhen & Hread)%bind_Normal.
  rewrite when_printf in Hwhen. inversion Hwhen; subst. clear Hwhen.
  destruct (String.eqb path "+").
  - inversion Hread; subst. exists st_doc.
    by rewrite installed_queries_when.
  - apply read_monomer_cif_Normal in Hread as (doc & Hdoc & -> & ->).
    exists doc. rewrite installed_queries_app, installed_queries_when. simpl.
    by rewrite app_nil_r.
Qed.

Lemma read_user_files_Normal w verbose st_doc paths monlib tr monlib' tr' :
  for_each paths (Prog.read_user_file w verbose st_doc) monlib tr
  = (Normal monlib', tr') ->
  monomers monlib ⊆ monomers monlib'
  /\ installed_queries tr' = installed_queries tr
  /\ (forall n d, monomers monlib' !! n = Some d ->
      monomers monlib !! n = Some d
      \/ exists path doc, path ∈ paths /\ user_doc w st_doc path = Some doc
                          /\ d ∈ doc /\ cc_name d = n)
  /\ (forall path, path ∈ paths ->
      exists doc, user_doc w st_doc path = Some doc
                  /\ forall d, d ∈ doc -> is_Some (monomers monlib' !! cc_name d)).
Proof.
  revert monlib tr. induction paths as [|path paths IH]; intros monlib tr.
  - intros [= <- <-]. split; [done|]. split; [done|]. split; [by left|].
    intros path Hp. by apply elem_of_nil in Hp.
  - simpl. intros (ml1 & tr1 & Hone & Hrest)%bind_Normal.
    apply read_user_file_Normal in Hone as (doc & Hdoc & -> & Hq1).
    apply IH in Hrest as (Hsub & Hq & Horig & Hdef).
    split; [etrans; [apply (read_monomer_doc_subseteq doc)|done]|].
    split; [congruence|]. split.
    + intros n d Hd. apply Horig in Hd as [Hd|(path' & doc' & Hp & Hdoc' & Hd)].
      * apply read_monomer_doc_origin in Hd as [Hd|[Hd Hn]]; [by left|].
        right. exists path, doc. split; [apply list_elem_of_here|done].
      * right. exists path', doc'. split; [by apply list_elem_of_further|done].
    + intros path' [->|Hp]%elem_of_cons; [|by apply Hdef].
      exists doc. split; [done|]. intros d Hd.
      destruct (read_monomer_doc_defines doc monlib d Hd) as [d0 Hd0].
      exists d0. by eapply lookup_weaken.
Qed.

Lemma count_false monlib n :
  count monlib n = false <-> monomers monlib !! n = None.
Proof.
  unfold count. rewrite bool_decide_eq_false, <- eq_None_not_Some. done.
Qed.

Lemma vector_remove_if_count monlib monlib' names :
  monomers monlib ⊆ monomers monlib' ->
  vector_remove_if (count monlib') (vector_remove_if (count monlib) names)
  = vector_remove_if (count monlib') names.
Proof.
  intros Hsub. unfold vector_remove_if. rewrite list_filter_filter.
  apply list_filter_iff. intros n. rewrite !count_false.
  split; [by intros [? _]|]. intros Hn. split; [done|].
  destruct (monomers monlib !! n) as [d|] eqn:Hd; [|done].
  apply (lookup_weaken _ _ _ _ Hd) in Hsub. congruence.
Qed.

(** What a completed resolution has done, step by step. *)
Lemma resolve_monomers_Normal w p dir st_doc model0 tr monlib needed tr' :
  Prog.resolve_monomers w p dir st_doc model0 tr = (Normal (monlib, needed), tr') ->
  exists overrides tr1 installed ok error fallback_tr,
    for_each (opt_libin p) (Prog.read_user_file w (opt_verbose p) st_doc)
             {| monomers := ∅ |} tr = (Normal overrides, tr1)
    /\ read_monomer_lib w dir
         (vector_remove_if (count overrides) (get_all_residue_names model0))
         overrides fallback_tr
       = (Normal (installed, ok, error),
          fallback_tr ++ (MonomerQuery dir <$>
            vector_remove_if (count overrides) (get_all_residue_names model0)))
    /\ installed_queries fallback_tr = installed_queries tr1
    /\ installed_queries tr'
       = installed_queries tr1
         ++ vector_remove_if (count overrides) (get_all_residue_names model0)
    /\ monomers overrides ⊆ monomers installed
    /\ monomers installed ⊆ monomers monlib
    /\ needed = vector_remove_if (count monlib) (get_all_residue_names model0).
Proof.
  unfold Prog.resolve_monomers.
  intros (overrides & tr1 & Hover & Hrest)%bind_Normal.
  apply bind_Normal in Hrest as (u1 & tr2 & Hw1 & Hrest).
  rewrite when_printf in Hw1. inversion Hw1; subst u1 tr2. clear Hw1.
  apply bind_Normal in Hrest as (u2 & tr3 & Hw2 & Hrest).
  rewrite when_printf in Hw2. inversion Hw2; subst u2 tr3. clear Hw2.
  apply bind_Normal in Hrest as ([[installed ok] error] & tr4 & Hlib & Hrest).
  match type of Hlib with read_monomer_lib _ _ ?names _ ?t = _ =>
    destruct (read_monomer_lib_run w dir names overrides t)
      as (ml & ok' & err' & Hrun & Hsub & _ & _) end.
  rewrite Hrun in Hlib. inversion Hlib; subst ml ok' err' tr4. clear Hlib.
  apply bind_Normal in Hrest as (u3 & tr5 & Hw3 & Hrest).
  rewrite when_printf in Hw3. inversion Hw3; subst u3 tr5. clear Hw3.
  apply bind_Normal in Hrest as (fallback & tr6 & Hlow & Hrest).
  inversion Hrest; subst. clear Hrest.
  apply read_user_files_Normal in Hlow as (Hsub2 & Hq2 & _ & _).
  do 6 eexists. split; [exact Hover|]. split; [exact Hrun|].
  split; [by rewrite !installed_queries_when|].
  split.
  { rewrite Hq2, installed_queries_when, installed_queries_app,
      installed_queries_asked. by rewrite !installed_queries_when. }
  split; [done|]. split; [done|].
  apply vector_remove_if_count. by etrans.
Qed.


End Resolution.

Section MissingMonomers.
Context `{Externals}.

Lemma for_each_not_found needed tr :
  for_each needed
    (fun name (_ : unit) =>
       printf ("WARNING: definition not found for " +:+ name +:+ "."))
    tt tr
  = (Normal tt, tr ++ (not_found <$> needed)).
Proof.
  revert tr. induction needed as [|n needed IH]; intros tr.
  - simpl. by rewrite app_nil_r.
  - rewrite for_each_cons. unfold printf at 1, emit at 1.
    rewrite IH. simpl. by rewrite <- app_assoc.
Qed.

Lemma adhoc_restraints_run model0 needed monlib tr :
  Prog.adhoc_restraints model0 needed monlib tr
  = (Normal (make_new_ligands model0 needed monlib), tr ++ adhoc_warnings).
Proof.
  unfold Prog.adhoc_restraints, mbind, M_bind, bind, printf, emit, adhoc_warnings.
  simpl. by rewrite <- app_assoc.
Qed.

Lemma missing_monomers_run p model0 needed monlib tr :
  needed <> [] ->
  Prog.missing_monomers p model0 needed monlib tr
  = if is_yes (opt_auto_ligand p) false
    then (Normal (make_new_ligands model0 needed monlib),
          tr ++ (not_found <$> needed) ++ adhoc_warnings)
    else (Thrown "Missing monomer definitions", tr ++ (not_found <$> needed)).
Proof.
  intros Hne. unfold Prog.missing_monomers.
  destruct needed as [|n needed]; [done|].
  unfold mbind at 1, M_bind at 1, bind at 1. rewrite for_each_not_found.
  unfold mbind at 1, M_bind at 1, bind at 1.
  destruct (is_yes (opt_auto_ligand p) false); cbn [negb].
  - unfold ret at 1. cbv beta iota.
    rewrite adhoc_restraints_run. by rewrite <- app_assoc.
  - done.
Qed.


(** *** Ad-hoc definitions *)

Lemma make_new_ligand_cases model0 monlib name :
  make_new_ligand model0 monlib name = monlib
  \/ (monomers monlib !! name = None
      /\ exists res,
          find_most_complete_residue name model0 = Some res
          /\ monomers (make_new_ligand model0 monlib name)
             = <[name := make_chemcomp_with_restraints res]> (monomers monlib)).
Proof.
  unfold make_new_ligand.
  destruct (monomers monlib !! name) eqn:Hname; [by left|].
  destruct (find_most_complete_residue name model0) as [res|]; [|by left].
  right. split; [done|]. exists res. split; [done|].
  unfold emplace. by rewrite Hname.
Qed.

Lemma make_new_ligand_subseteq model0 monlib name :
  monomers monlib ⊆ monomers (make_new_ligand model0 monlib name).
Proof.
  destruct (make_new_ligand_cases model0 monlib name)
    as [->|(Hname & res & _ & ->)]; [done|].
  by apply insert_subseteq.
Qed.

Lemma make_new_ligands_subseteq model0 names monlib :
  monomers monlib ⊆ monomers (make_new_ligands model0 names monlib).
Proof.
  unfold make_new_ligands. revert monlib.
  induction names as [|name names IH]; intros monlib; simpl; [done|].
  etrans; [apply make_new_ligand_subseteq|apply IH].
Qed.

End MissingMonomers.

Section Pipelines.
Context `{Externals}.

Lemma missing_monomers_Normal p model0 needed monlib tr monlib' tr' :
  Prog.missing_monomers p model0 needed monlib tr = (Normal monlib', tr') ->
  monomers monlib ⊆ monomers monlib'.
Proof.
  destruct needed as [|n needed].
  - intros [= <- <-]. done.
  - rewrite missing_monomers_run by done.
    destruct (is_yes (opt_auto_ligand p) false); [|done].
    intros [= <- <-]. apply (make_new_ligands_subseteq model0 (n :: needed)).
Qed.

(** The stages of prog/prep.cpp in sequence: what the priority libraries
    defined is in the resolved library, and what resolution produced is
    in the library that leaves the ad-hoc stage. *)
Lemma prog_pipeline_grows w p dir tr monlib st' tr' :
  Prog.main_body w p dir tr = (Normal (monlib, st'), tr') ->
  exists st_doc model0 rest overrides tr1 resolved needed tr2,
    read_structure_gz w (input p) = Some (st', st_doc)
    /\ models st' = model0 :: rest
    /\ for_each (opt_libin p) (Prog.read_user_file w (opt_verbose p) st_doc)
                {| monomers := ∅ |} (tr ++ reading p)
       = (Normal overrides, tr1)
    /\ Prog.resolve_monomers w p dir st_doc model0 (tr ++ reading p)
       = (Normal (resolved, needed), tr2)
    /\ Prog.missing_monomers p model0 needed resolved tr2 = (Normal monlib, tr')
    /\ monomers overrides ⊆ monomers resolved
    /\ monomers resolved ⊆ monomers monlib.
Proof.
  unfold Prog.main_body.
  intros (u & tr0 & Hw & Hbody)%bind_Normal.
  rewrite when_printf in Hw. injection Hw as _ <-. fold (reading p) in Hbody.
  destruct (read_structure_gz w (input p)) as [[st st_doc]|]; [|done].
  destruct (models st) as [|model0 rest] eqn:Hmodels.
  { apply bind_Normal in Hbody as (? & ? & _ & Hret). done. }
  apply bind_Normal in Hbody as ([resolved needed] & tr2 & Hres & Hbody).
  apply bind_Normal in Hbody as (ml & tr3 & Hmiss & Hret).
  injection Hret as <- <- <-.
  pose proof Hres as Hres'.
  apply resolve_monomers_Normal in Hres'
    as (over & tr1 & inst & ? & ? & ? & Hover & _ & _ & _ & Hsub1 & Hsub2 & _).
  exists st_doc, model0, rest, over, tr1, resolved, needed, tr2.
  split; [done|]. split; [done|]. split; [done|]. split; [done|].
  split; [done|]. split; [by etrans|].
  by eapply missing_monomers_Normal.
Qed.

(** The stages of src/prep.cpp in sequence: the [--libin] definitions are
    in the library after the installed library was read, that library is
    in the one after the ad-hoc stage, and link detection extends the
    connections of the structure as read. *)
Lemma src_pipeline_grows w p dir tr monlib st' tr' :
  Src.main_body w p dir tr = (Normal (monlib, st'), tr') ->
  exists st st_doc model0 rest libin_lib tr1 installed ok error tr2,
    read_structure_gz w (input p) = Some (st, st_doc)
    /\ models st = model0 :: rest
    /\ read_monomer_lib w dir (get_all_residue_names model0) libin_lib tr1
       = (Normal (installed, ok, error), tr2)
    /\ monlib = (if ok then installed
                 else make_new_ligands model0 (get_all_residue_names model0)
                                       installed)
    /\ monomers libin_lib ⊆ monomers installed
    /\ monomers installed ⊆ monomers monlib
    /\ cell st' = cell st
    /\ connections st `prefix_of` connections st'.
Proof.
  unfold Src.main_body.
  intros (u & tr0 & Hw & Hbody)%bind_Normal.
  destruct (read_structure_gz w (input p)) as [[st st_doc]|]; [|done].
  destruct (models st) as [|model0 rest] eqn:Hmodels.
  { apply bind_Normal in Hbody as (? & ? & _ & Hret). done. }
  apply bind_Normal in Hbody as (over & tr1 & Hover & Hbody).
  apply bind_Normal in Hbody as (u2 & tr2 & Hw2 & Hbody).
  apply bind_Normal in Hbody as ([[inst ok] err] & tr3 & Hlib & Hbody).
  apply bind_Normal in Hbody as (ml & tr4 & Hsyn & Hbody).
  apply bind_Normal in Hbody as (st2 & tr5 & Hlink & Hret).
  injection Hret as <- <- <-.
  exists st, st_doc, model0, rest, over, tr2, inst, ok, err, tr3.
  split; [done|]. split; [done|]. split; [done|].
  edestruct (read_monomer_lib_run w dir) as (ml' & ok' & err' & Hrun & Hsub & _).
  rewrite Hrun in Hlib. injection Hlib as -> -> -> _.
  assert (ml = if ok then inst
               else make_new_ligands model0 (get_all_residue_names model0) inst)
    as ->.
  { destruct ok; simpl in Hsyn.
    + by injection Hsyn as <- _.
    + apply bind_Normal in Hsyn as (? & ? & _ & Hsyn).
      apply bind_Normal in Hsyn as (? & ? & _ & Hsyn).
      apply bind_Normal in Hsyn as (? & ? & _ & Hsyn).
      apply bind_Normal in Hsyn as (? & ? & _ & Hsyn).
      by injection Hsyn as <- _. }
  split; [done|]. split; [exact Hsub|]. split.
  { destruct ok; [done|].
    apply (make_new_ligands_subseteq model0 (get_all_residue_names model0)). }
  destruct (is_yes (opt_auto_link p) false).
  - destruct (assign_connections_run model0 st tr4)
      as (acc & st'' & Hrun' & Hcell & _ & Hconn & _).
    rewrite Hrun' in Hlink. injection Hlink as <- _.
    split; [done|]. rewrite Hconn. by apply prefix_app_r.
  - by injection Hlink as <- _.
Qed.

End Pipelines.

Section AdhocClaims.
Context `{Externals}.

(** C9: every operation of the core only grows the two sets.  Reading a
    user library, asking the installed library and making ad-hoc
    definitions each leave every definition already present in place
    under its name; link detection leaves the recorded connections in
    place, in order, and appends to them. *)
Theorem monotonic_growth :
  (forall w verbose st_doc path monlib tr monlib' tr',
     Prog.read_user_file w verbose st_doc path monlib tr = (Normal monlib', tr') ->
     monomers monlib ⊆ monomers monlib')
  /\ (forall w path monlib tr monlib' tr',
     read_monomer_cif w path monlib tr = (Normal monlib', tr') ->
     monomers monlib ⊆ monomers monlib')
  /\ (forall w dir names monlib tr,
     exists monlib' ok error tr',
       read_monomer_lib w dir names monlib tr = (Normal (monlib', ok, error), tr')
       /\ monomers monlib ⊆ monomers monlib')
  /\ (forall model0 names monlib,
     monomers monlib ⊆ monomers (make_new_ligands model0 names monlib))
  /\ (forall model st tr,
     exists st' tr',
       Src.assign_connections model st tr = (Normal st', tr')
       /\ connections st `prefix_of` connections st').
Proof.
  split; [|split; [|split; [|split]]].
  - intros w verbose st_doc path monlib tr monlib' tr' Hrun.
    apply read_user_file_Normal in Hrun as (doc & _ & -> & _).
    apply read_monomer_doc_subseteq.
  - intros w path monlib tr monlib' tr' Hrun.
    apply read_monomer_cif_Normal in Hrun as (doc & _ & -> & _).
    apply read_monomer_doc_subseteq.
  - intros w dir names monlib tr.
    destruct (read_monomer_lib_run w dir names monlib tr)
      as (ml & ok & err & Hrun & Hsub & _).
    by exists ml, ok, err, (tr ++ (MonomerQuery dir <$> names)).
  - apply make_new_ligands_subseteq.
  - intros model st tr.
    destruct (assign_connections_run model st tr)
      as (acc & st' & Hrun & _ & _ & Hconn & _).
    exists st', (tr ++ (added_link <$> acc)). split; [done|].
    rewrite Hconn. by apply prefix_app_r.
Qed.

(** C10: an ad-hoc definition is inserted for a name only when the
    library has no definition under that name at that moment, and then it
    is the definition made from the chosen template; so every definition
    present before the loop is still there, unchanged, after it. *)
Theorem adhoc_never_replaces (model0 : Model) :
  (forall monlib name,
     make_new_ligand model0 monlib name = monlib
     \/ (monomers monlib !! name = None
         /\ exists res,
             find_most_complete_residue name model0 = Some res
             /\ monomers (make_new_ligand model0 monlib name)
                = <[name := make_chemcomp_with_restraints res]>
                    (monomers monlib)))
  /\ (forall names monlib n d,
     monomers monlib !! n = Some d ->
     monomers (make_new_ligands model0 names monlib) !! n = Some d).
Proof.
  split; [apply make_new_ligand_cases|].
  intros names monlib n d Hd.
  eapply lookup_weaken; [exact Hd|apply make_new_ligands_subseteq].
Qed.

End AdhocClaims.

(** * The program as a whole *)

Lemma get_all_residue_names_elem model n :
  n ∈ get_all_residue_names model
  <-> exists r, r ∈ all_residues model /\ res_name r = n.
Proof.
  unfold get_all_residue_names.
  assert (forall l names,
            n ∈ foldl (fun names res =>
                         if decide (res_name res ∈ names) then names
                         else names ++ [res_name res]) names l
            <-> n ∈ names \/ exists r, r ∈ l /\ res_name r = n) as Hgen.
  { induction l as [|x l IH]; intros names; simpl.
    - split; [by left|]. intros [Hn|(r & Hr & _)]; [done|].
      by apply elem_of_nil in Hr.
    - rewrite IH. split.
      + intros [Hn|(r & Hr & Hname)].
        * destruct (decide (res_name x ∈ names)); [by left|].
          apply elem_of_app in Hn as [Hn|Hn]; [by left|].
          apply list_elem_of_singleton in Hn. right. exists x.
          split; [apply list_elem_of_here|done].
        * right. exists r. split; [by apply list_elem_of_further|done].
      + intros [Hn|(r & Hr & Hname)].
        * left. destruct (decide (res_name x ∈ names)); [done|].
          apply elem_of_app. by left.
        * apply elem_of_cons in Hr as [->|Hr].
          -- left. destruct (decide (res_name x ∈ names)); [by subst|].
             apply elem_of_app. right. apply list_elem_of_singleton. done.
          -- right. by exists r. }
  rewrite Hgen. split; [|by right].
  intros [Hn|Hr]; [by apply elem_of_nil in Hn|done].
Qed.

(** In the program the names handed to the ad-hoc loop are residue names
    of the model, so a template is always found for them. *)
Lemma needed_names_have_template model0 n :
  n ∈ get_all_residue_names model0 ->
  is_Some (find_most_complete_residue n model0).
Proof.
  intros (r & Hr & Hname)%get_all_residue_names_elem.
  pose proof (find_most_complete_residue_scan n model0) as Hsel.
  destruct (find_most_complete_residue n model0) as [r0|]; [done|].
  exfalso. by eapply Hsel.
Qed.

(** Resolution completes whenever every user library can be read. *)
Lemma read_user_files_complete w verbose st_doc paths monlib tr :
  (forall path, path ∈ paths -> is_Some (user_doc w st_doc path)) ->
  exists monlib' tr',
    for_each paths (Prog.read_user_file w verbose st_doc) monlib tr
    = (Normal monlib', tr').
Proof.
  revert monlib tr. induction paths as [|path paths IH]; intros monlib tr Hall.
  - by exists monlib, tr.
  - rewrite for_each_cons.
    assert (exists ml1 tr1,
      Prog.read_user_file w verbose st_doc path monlib tr = (Normal ml1, tr1))
      as (ml1 & tr1 & ->).
    { destruct (Hall path) as [doc Hdoc]; [apply list_elem_of_here|].
      unfold Prog.read_user_file, user_doc, mbind, M_bind, bind in *.
      rewrite when_printf.
      destruct (String.eqb path "+"); [by eexists _, _|].
      unfold read_monomer_cif, mbind, M_bind, bind, emit. rewrite Hdoc.
      by eexists _, _. }
    apply IH. intros path' Hp. apply Hall. by apply list_elem_of_further.
Qed.

Lemma resolve_monomers_completes w p dir st_doc model0 tr :
  (forall path, path ∈ opt_libin p ++ opt_libin2 p ->
                is_Some (user_doc w st_doc path)) ->
  exists monlib needed tr',
    Prog.resolve_monomers w p dir st_doc model0 tr
    = (Normal (monlib, needed), tr').
Proof.
  intros Hall. unfold Prog.resolve_monomers.
  destruct (read_user_files_complete w (opt_verbose p) st_doc (opt_libin p)
              {| monomers := ∅ |} tr) as (over & tr1 & Hover).
  { intros path Hp. apply Hall, elem_of_app. by left. }
  unfold mbind at 1, M_bind at 1, bind at 1. rewrite Hover.
  unfold mbind at 1, M_bind at 1, bind at 1. rewrite when_printf.
  unfold mbind at 1, M_bind at 1, bind at 1. rewrite when_printf.
  unfold mbind at 1, M_bind at 1, bind at 1.
  destruct (read_monomer_lib w dir _ over _) as [r tr4] eqn:Hlib.
  edestruct (read_monomer_lib_run w dir) as (ml & ok & err & Hr & _).
  rewrite Hr in Hlib. injection Hlib as <- Htr4.
  unfold mbind at 1, M_bind at 1, bind at 1. rewrite when_printf.
  destruct (read_user_files_complete w (opt_verbose p) st_doc (opt_libin2 p)
              ml (tr4 ++ (if negb (err =? "")%string then [Stdout err] else [])))
    as (low & tr2 & Hlow).
  { intros path Hp. apply Hall, elem_of_app. by right. }
  unfold mbind at 1, M_bind at 1, bind at 1. rewrite Hlow.
  by eexists _, _, _.
Qed.

(** src/prep.cpp passes every residue name to [read_monomer_lib]; the
    definitions read from [--libin] are kept all the same, because
    insertion never replaces. *)
Lemma src_libin_kept `{Externals} w dir model0 names over tr1 :
  exists installed ok error tr2,
    read_monomer_lib w dir (get_all_residue_names model0) over tr1
    = (Normal (installed, ok, error), tr2)
    /\ forall n d, monomers over !! n = Some d ->
         monomers (make_new_ligands model0 names installed) !! n = Some d.
Proof.
  destruct (read_monomer_lib_run w dir (get_all_residue_names model0) over tr1)
    as (ml & ok & err & Hrun & Hsub & _).
  exists ml, ok, err, (tr1 ++ (MonomerQuery dir <$> get_all_residue_names model0)).
  split; [done|]. intros n d Hd.
  eapply lookup_weaken; [|apply make_new_ligands_subseteq].
  by eapply lookup_weaken.
Qed.

(** * The examples of the specification *)

(** Residues named LIG with 2, 5, 8, 3 and 8 atoms: the first of the two
    8-atom residues is the template. *)
Example template_selection :
  find_most_complete_residue "LIG" ExampleRun.model0
  = Some (ExampleRun.plain "LIG" 2 8).
Proof. reflexivity. Qed.

(** ALA, ALA, LIG, XYZ with XYZ in no library and synthesis on: ALA from
    the installed library, LIG from the user's file, XYZ made ad hoc, and
    a warning naming XYZ. *)
Example end_to_end :
  let run := @Prog.GEMMI_MAIN Example.externals ExampleRun.world
               (ExampleRun.options (Some true)) in
  exit_code run = 0%Z
  /\ (forall ml st, prepared run = Some (ml, st) ->
      monomers ml !! "ALA" = Some ExampleRun.ALA_installed
      /\ monomers ml !! "LIG" = Some ExampleRun.LIG_user
      /\ monomers ml !! "XYZ"
         = Some (ExampleRun.comp "XYZ" ["X"; "X"; "X"; "X"]))
  /\ is_Some (prepared run)
  /\ not_found "XYZ" ∈ trace run.
Proof.
  split; [reflexivity|]. split; [|split].
  - intros ml st Hrun. vm_compute in Hrun. injection Hrun as <- <-.
    repeat split; reflexivity.
  - vm_compute. by eexists.
  - vm_compute. do 4 apply list_elem_of_further. apply list_elem_of_here.
Qed.

(** The radii and the squared distances of the examples are
    single-precision values. *)
Example single_precision_values :
  Forall (fun q => to_float q = Qred q)
    [ Example.radius "S"; Example.radius "C"; Example.radius "N";
      Example.radius "H"; Example.radius "O";
      7088373 # 1048576; 14176747 # 2097152;
      15785683 # 4194304; 9947211 # 4194304 ].
Proof. repeat (constructor; [vm_compute; reflexivity|]). constructor. Qed.

(** The two sulfurs, whose computed threshold squared is about 6.7599995:
    at the last single-precision squared distance below it the pair is
    linked, at the next one it is not. *)
Example threshold_boundary :
  (@Src.on_contact Example.externals
     (Example.contact_SS (7088373 # 1048576)) (Example.st0, 0%Z) []).1
  = Normal (Src.push_back
              (@Src.new_connection Example.externals 1
                 (Example.contact_SS (7088373 # 1048576))) Example.st0, 1%Z)
  /\ (@Src.on_contact Example.externals
        (Example.contact_SS (14176747 # 2097152)) (Example.st0, 0%Z) []).1
     = Normal (Example.st0, 0%Z).
Proof. split; reflexivity. Qed.

(** * The theorems at work on the example world *)

Lemma find_most_complete_residue_selects_witness :
  exists r i,
    find_most_complete_residue "LIG" ExampleRun.model0 = Some r
    /\ all_residues ExampleRun.model0 !! i = Some r
    /\ res_name r = "LIG"
    /\ (length (atoms (ExampleRun.plain "LIG" 4 8)) <= length (atoms r))%nat.
Proof.
  pose proof (find_most_complete_residue_selects "LIG" ExampleRun.model0) as Hsel.
  destruct (find_most_complete_residue "LIG" ExampleRun.model0) as [r|] eqn:Hr.
  - destruct Hsel as (i & Hi & Hname & Hmax).
    exists r, i. split; [reflexivity|]. split; [exact Hi|]. split; [exact Hname|].
    exact (proj1 (Hmax 7%nat (ExampleRun.plain "LIG" 4 8) eq_refl eq_refl)).
  - discriminate Hr.
Defined.

Lemma link_threshold_witness :
  Example.contact_SS 4 ∈ @link_contacts Example.externals Example.model0
                            Example.st0
  /\ @within_threshold Example.externals (Example.contact_SS 4)
  /\ (exists st' tr' new,
        @Src.assign_connections Example.externals Example.model0 Example.st0 []
        = (Normal st', tr')
        /\ connections st' = connections Example.st0 ++ new
        /\ exists conn, conn ∈ new /\ joins (Example.contact_SS 4) conn = true)
  /\ ~ @within_threshold Example.externals
        (Example.contact_SS (sq ((4404019 # 2097152) + (1 # 2) + (1 # 100000)))).
Proof.
  assert (Hin : Example.contact_SS 4
                ∈ @link_contacts Example.externals Example.model0 Example.st0).
  { apply list_elem_of_here. }
  assert (Hwithin : @within_threshold Example.externals (Example.contact_SS 4)).
  { vm_compute. discriminate. }
  destruct (@link_threshold Example.externals Example.model0 Example.st0 [])
    as (st' & tr' & new & Hrun & Hconn & Hiff & _ & Hclose).
  split; [exact Hin|]. split; [exact Hwithin|]. split.
  - exists st', tr', new. split; [exact Hrun|]. split; [exact Hconn|].
    apply (Hiff (Example.contact_SS 4) Hin).
    + intros conn Hnone. inversion Hnone.
    + exists (Example.contact_SS 4).
      split; [exact Hin|]. split; [reflexivity|exact Hwithin].
  - set (d := ((4404019 # 2097152) + (1 # 2) + (1 # 100000))%Q).
    apply (proj2 (Hclose (Example.contact_SS (sq d))
                    ltac:(vm_compute; discriminate) ltac:(reflexivity)) d).
    + vm_compute. discriminate.
    + reflexivity.
Defined.

Lemma assign_connections_idempotent_witness :
  exists st1 tr1,
    @Src.assign_connections Example.externals Example.model0 Example.st0 []
    = (Normal st1, tr1)
    /\ @Src.assign_connections Example.externals Example.model0 st1 tr1
       = (Normal st1, tr1).
Proof.
  destruct (@assign_connections_idempotent Example.externals Example.model0
              Example.st0 []) as (st1 & tr1 & Hrun & Hcell & Hagain).
  exists st1, tr1. split; [exact Hrun|].
  apply Hagain; [exact Hcell|]. intros conn Hconn. exact Hconn.
Defined.

Lemma adjacent_residues_never_linked_witness :
  adjacent_residues (np_first Example.pair_CYS_GLY)
                    (np_second Example.pair_CYS_GLY) = true
  /\ (np_dist_sq Example.pair_CYS_GLY
      <= sq (@covalent_r Example.externals "S"
             + @covalent_r Example.externals "N" + (1 # 2)))%Q
  /\ contact_of {| search_radius := 7 # 2; ignore := AdjacentResidues |}
                Example.model0 Example.pair_CYS_GLY = None.
Proof.
  split; [reflexivity|]. split; [vm_compute; discriminate|].
  apply (proj1 (@adjacent_residues_never_linked Example.externals
                  Example.model0 Example.st0 [])).
  reflexivity.
Defined.

Lemma new_connections_described_witness :
  (Z.of_nat (length (@neighbor_search Example.externals Example.model0
                       (cell Example.st0) 5)) <= INT_MAX)%Z
  /\ exists st' tr' new,
      @Src.assign_connections Example.externals Example.model0 Example.st0 []
      = (Normal st', tr')
      /\ connections st' = connections Example.st0 ++ new
      /\ NoDup (conn_name <$> new).
Proof.
  assert (Hbound : (Z.of_nat (length (@neighbor_search Example.externals
                      Example.model0 (cell Example.st0) 5)) <= INT_MAX)%Z).
  { vm_compute. discriminate. }
  split; [exact Hbound|].
  destruct (@new_connections_described Example.externals Example.model0
              Example.st0 [] Hbound)
    as (st' & tr' & acc & new & Hrun & Hconn & _ & _ & _ & Hnodup & _).
  exists st', tr', new. split; [exact Hrun|]. split; [exact Hconn|exact Hnodup].
Defined.



Lemma monotonic_growth_witness :
  exists st' tr',
    @Src.assign_connections Example.externals Example.model0 Example.st_named []
    = (Normal st', tr')
    /\ connections Example.st_named `prefix_of` connections st'.
Proof.
  exact (proj2 (proj2 (proj2 (proj2 (@monotonic_growth Example.externals))))
           Example.model0 Example.st_named []).
Defined.

Lemma adhoc_never_replaces_witness :
  monomers {| monomers := {["LIG" := ExampleRun.LIG_user]} |} !! "LIG"
  = Some ExampleRun.LIG_user
  /\ is_Some (find_most_complete_residue "LIG" ExampleRun.model0)
  /\ monomers (@make_new_ligands Example.externals ExampleRun.model0
                 ["LIG"; "XYZ"]
                 {| monomers := {["LIG" := ExampleRun.LIG_user]} |}) !! "LIG"
     = Some ExampleRun.LIG_user.
Proof.
  split; [reflexivity|]. split; [by eexists|].
  apply (proj2 (@adhoc_never_replaces Example.externals ExampleRun.model0)).
  reflexivity.
Defined.

(** * Further properties of the ad-hoc loop *)

Section AdhocLoop.
Context `{Externals}.

Lemma MonLib_eq (a b : MonLib) : monomers a = monomers b -> a = b.
Proof. destruct a, b; simpl. by intros ->. Qed.

Lemma make_new_ligand_lookup model0 monlib name n :
  monomers (make_new_ligand model0 monlib name) !! n
  = match monomers monlib !! n with
    | Some d => Some d
    | None =>
        if decide (name = n)
        then make_chemcomp_with_restraints <$> find_most_complete_residue n model0
        else None
    end.
Proof.
  destruct (make_new_ligand_cases model0 monlib name)
    as [Hsame|(Hname & res & Hres & ->)].
  - rewrite Hsame. destruct (monomers monlib !! n) eqn:Hn; [done|].
    destruct (decide (name = n)) as [->|]; [|done].
    unfold make_new_ligand in Hsame. rewrite Hn in Hsame.
    destruct (find_most_complete_residue n model0) as [res|]; [|done].
    exfalso. apply (f_equal (fun ml => monomers ml !! n)) in Hsame.
    rewrite emplace_lookup, Hn, decide_True in Hsame by done. done.
  - rewrite lookup_insert. destruct (decide (name = n)) as [->|Hne].
    + by rewrite Hname, Hres.
    + by destruct (monomers monlib !! n).
Qed.

Lemma adhoc_loop_lookup model0 names monlib n :
  monomers (make_new_ligands model0 names monlib) !! n
  = match monomers monlib !! n with
    | Some d => Some d
    | None =>
        if decide (n ∈ names)
        then make_chemcomp_with_restraints <$> find_most_complete_residue n model0
        else None
    end.
Proof.
  unfold make_new_ligands. revert monlib.
  induction names as [|name names IH]; intros monlib.
  - simpl. destruct (monomers monlib !! n); [done|].
    destruct (decide (n ∈ [])) as [Hin|_]; [|done]. by apply elem_of_nil in Hin.
  - change (foldl (make_new_ligand model0) monlib (name :: names))
      with (foldl (make_new_ligand model0) (make_new_ligand model0 monlib name) names).
    rewrite IH, make_new_ligand_lookup.
    destruct (monomers monlib !! n) as [d|]; [done|].
    destruct (decide (name = n)) as [->|Hne].
    + destruct (decide (n ∈ n :: names)) as [_|Hnin];
        [|exfalso; apply Hnin, list_elem_of_here].
      destruct (find_most_complete_residue n model0); simpl; [done|].
      by destruct (decide (n ∈ names)).
    + destruct (decide (n ∈ names)) as [Hin|Hnin],
               (decide (n ∈ name :: names)) as [Hin'|Hnin']; try done.
      * exfalso. by apply Hnin', list_elem_of_further.
      * apply elem_of_cons in Hin' as [->|Hin']; done.
Qed.

(** X1: what the ad-hoc loop does for each name.  A name that had a
    definition keeps it.  A name of the list that had none and has a
    residue in the model gets the definition made from the most complete
    residue of that name.  Any other name stays without definition: one
    that is not in the list, or one that no residue of the model
    carries. *)
Theorem adhoc_loop_outcome (model0 : Model) (names : list string)
    (monlib : MonLib) (n : string) :
  (forall d, monomers monlib !! n = Some d ->
     monomers (make_new_ligands model0 names monlib) !! n = Some d)
  /\ (monomers monlib !! n = None -> n ∈ names ->
      forall r, r ∈ all_residues model0 -> res_name r = n ->
      exists res,
        find_most_complete_residue n model0 = Some res
        /\ monomers (make_new_ligands model0 names monlib) !! n
           = Some (make_chemcomp_with_restraints res))
  /\ (monomers monlib !! n = None ->
      n ∉ names \/ (forall r, r ∈ all_residues model0 -> res_name r <> n) ->
      monomers (make_new_ligands model0 names monlib) !! n = None).
Proof.
  pose proof (adhoc_loop_lookup model0 names monlib n) as Hlook.
  pose proof (find_most_complete_residue_scan n model0) as Hscan.
  split; [|split].
  - intros d Hd. by rewrite Hlook, Hd.
  - intros Hn Hin r Hr Hname. rewrite Hlook, Hn, decide_True by done.
    destruct (find_most_complete_residue n model0) as [res|].
    + by exists res.
    + exfalso. by eapply Hscan.
  - intros Hn [Hnin|Hnone]; rewrite Hlook, Hn.
    + by rewrite decide_False.
    + destruct (decide (n ∈ names)); [|done].
      destruct (find_most_complete_residue n model0) as [res|]; [|done].
      destruct Hscan as (i & Hi & Hres & _).
      exfalso. eapply Hnone; [|exact Hres]. by eapply list_elem_of_lookup_2.
Qed.

(** X2: the ad-hoc loop depends on the set of names it is given, not on
    their order or on repetitions. *)
Theorem make_new_ligands_same_names (model0 : Model)
    (names1 names2 : list string) (monlib : MonLib) :
  (forall n, n ∈ names1 <-> n ∈ names2) ->
  make_new_ligands model0 names1 monlib = make_new_ligands model0 names2 monlib.
Proof.
  intros Hsame. apply MonLib_eq, map_eq. intros n.
  rewrite !adhoc_loop_lookup.
  destruct (monomers monlib !! n); [done|].
  destruct (decide (n ∈ names1)) as [H1|H1], (decide (n ∈ names2)) as [H2|H2];
    try done.
  - by apply Hsame in H1.
  - by apply Hsame in H2.
Qed.

(** X3: running the ad-hoc loop again over the same names changes
    nothing. *)
Theorem make_new_ligands_idempotent (model0 : Model) (names : list string)
    (monlib : MonLib) :
  make_new_ligands model0 names (make_new_ligands model0 names monlib)
  = make_new_ligands model0 names monlib.
Proof.
  apply MonLib_eq, map_eq. intros n.
  rewrite (adhoc_loop_lookup model0 names (make_new_ligands _ _ _)).
  destruct (monomers (make_new_ligands model0 names monlib) !! n) eqn:Hn; [done|].
  rewrite adhoc_loop_lookup in Hn.
  destruct (monomers monlib !! n); [done|].
  by destruct (decide (n ∈ names)).
Qed.

End AdhocLoop.

(** * Further properties of link detection *)

Section LinkDetectionMore.
Context `{Externals}.

Lemma find_connection_None st a b :
  find_connection_by_cra st a b = None <->
  forall conn, conn ∈ connections st ->
    connects (cra_address a) (cra_address b) conn = false.
Proof.
  split.
  - intros Hnone conn Hin.
    destruct (connects _ _ conn) eqn:Hc; [|done].
    assert (is_Some (find_connection_by_cra st a b)) as [x Hx].
    { apply find_connection_is_Some. by exists conn. }
    congruence.
  - intros Hall. destruct (find_connection_by_cra st a b) eqn:Hf; [|done].
    assert (is_Some (find_connection_by_cra st a b)) as Hs by (rewrite Hf; by eexists).
    apply find_connection_is_Some in Hs as (conn & Hin & Hc).
    rewrite Hall in Hc by done. done.
Qed.

(** The loop again, recording that each accepted contact found no
    connection between its atoms among those present when its turn
    came. *)
Lemma for_each_on_contact_fresh contacts st k tr :
  exists accepted st' tr',
    for_each contacts Src.on_contact (st, k) tr
    = (Normal (st', Nat.iter (length accepted) int_incr k), tr')
    /\ connections st' = connections st ++ added k accepted
    /\ forall i c, accepted !! i = Some c ->
         forall old, old ∈ connections st ++ take i (added k accepted) ->
           connects (cra_address (cra1 c)) (cra_address (cra2 c)) old = false.
Proof.
  revert st k tr. induction contacts as [|c cs IH]; intros st k tr.
  - exists [], st, tr. simpl. rewrite app_nil_r. split; [done|]. split; [done|].
    intros i c Hc. by rewrite lookup_nil in Hc.
  - rewrite for_each_cons.
    assert (settled st c
            \/ (within_threshold c
                /\ find_connection_by_cra st (cra1 c) (cra2 c) = None))
      as [Hset|[Hnear Hnew]].
    { destruct (Qlt_le_dec (sq_double (bond_threshold c)) (dist_sq c)) as [Hlt|Hle].
      - left. left. by apply Qlt_not_le.
      - destruct (find_connection_by_cra st (cra1 c) (cra2 c)) eqn:Hf.
        + left. right. rewrite Hf. by eexists.
        + by right. }
    + assert (Src.on_contact c (st, k) tr = (Normal (st, k), tr)) as ->.
      { destruct Hset; [by apply on_contact_reject|by apply on_contact_known]. }
      apply IH.
    + rewrite on_contact_accept by done.
      set (st1 := Src.push_back (Src.new_connection (int_incr k) c) st).
      destruct (IH st1 (int_incr k) (tr ++ [added_link c]))
        as (acc & st' & tr' & Hrun & Hconn & Hfresh).
      exists (c :: acc), st', tr'. split; [|split].
      * rewrite Hrun. simpl length. by rewrite Nat.iter_succ_r.
      * rewrite Hconn, added_cons. subst st1. simpl. by rewrite <- app_assoc.
      * intros [|i] c' Hc' old Hold.
        -- injection Hc' as <-. rewrite take_0, app_nil_r in Hold.
           by eapply find_connection_None.
        -- rewrite added_cons in Hold. simpl in Hold, Hc'.
           eapply (Hfresh i c' Hc'). subst st1. simpl.
           by rewrite <- app_assoc.
Qed.

(** X4: within one run no pair is linked twice.  Each connection that
    link detection appends joins two atoms that no connection recorded
    before it joins, neither one read with the structure nor one appended
    earlier in the same run. *)
Theorem links_not_repeated (model : Model) (st : Structure) (tr : list Event) :
  exists st' tr' new,
    Src.assign_connections model st tr = (Normal st', tr')
    /\ connections st' = connections st ++ new
    /\ forall i conn, new !! i = Some conn ->
         forall old, old ∈ connections st ++ take i new ->
           connects (partner1 conn) (partner2 conn) old = false.
Proof.
  destruct (for_each_on_contact_fresh (link_contacts model st) st 0 tr)
    as (acc & st' & tr' & Hrun & Hconn & Hfresh).
  exists st', tr', (added 0 acc). split; [|split; [done|]].
  - unfold Src.assign_connections, mbind, M_bind, bind.
    fold (link_contacts model st). by rewrite Hrun.
  - intros i conn Hi old Hold.
    apply added_lookup in Hi as (c & Hc & ->).
    exact (Hfresh i c Hc old Hold).
Qed.

(** X5: a link is never longer than the contact radius 3.5, whatever the
    covalent radii.  Every appended connection was built from a neighbour
    pair whose squared distance is at most 3.5 squared and at most the
    square the callback computes of its threshold (the radii added in
    single precision, 0.5 added and the square taken in double
    precision), and there are at most as many new connections as
    neighbour pairs. *)
Theorem links_within_both_radii (model : Model) (st : Structure)
    (tr : list Event) :
  exists st' tr' new,
    Src.assign_connections model st tr = (Normal st', tr')
    /\ connections st' = connections st ++ new
    /\ (length new <= length (neighbor_search model (cell st) 5))%nat
    /\ forall conn, conn ∈ new ->
         exists p a b,
           p ∈ neighbor_search model (cell st) 5
           /\ to_cra model (np_first p) = Some a
           /\ to_cra model (np_second p) = Some b
           /\ partner1 conn = cra_address a /\ partner2 conn = cra_address b
           /\ (np_dist_sq p <= sq (7 # 2))%Q
           /\ (np_dist_sq p
               <= sq_double
                    (double_add
                       (float_add (covalent_r (element (cra_atom a)))
                                  (covalent_r (element (cra_atom b))))
                       (1 # 2)))%Q
           /\ reported_distance conn = sqrt (np_dist_sq p).
Proof.
  destruct (assign_connections_run model st tr)
    as (acc & st' & Hrun & _ & _ & Hconn & Hsub & Hnear & _).
  exists st', (tr ++ (added_link <$> acc)), (added 0 acc).
  split; [done|]. split; [done|]. split.
  - unfold added. rewrite length_imap.
    apply sublist_length in Hsub.
    pose proof (length_omap_le
      (contact_of {| search_radius := 7 # 2; ignore := AdjacentResidues |} model)
      (neighbor_search model (cell st) 5)) as Hle.
    unfold link_contacts, for_each_contact in Hsub. lia.
  - intros conn Hin. unfold added in Hin.
    apply elem_of_lookup_imap_1 in Hin as (i & c & -> & Hc).
    apply list_elem_of_lookup_2 in Hc.
    pose proof (elem_of_sublist _ _ _ Hc Hsub) as Hc'.
    apply link_contacts_origin in Hc'
      as (p & Hp & _ & Hrad & Ha & Hb & _ & Hd).
    rewrite Forall_forall in Hnear. specialize (Hnear c Hc).
    unfold within_threshold, bond_threshold in Hnear. rewrite Hd in Hnear.
    exists p, (cra1 c), (cra2 c). simpl. rewrite Hd. done.
Qed.

(** X6: link detection returns the structure as it was and prints nothing
    exactly when every contact it visits is beyond the threshold the
    callback computes for it or between atoms already connected; in
    particular when the neighbour search reports no pair. *)
Theorem assign_connections_identity (model : Model) (st : Structure)
    (tr : list Event) :
  (Src.assign_connections model st tr = (Normal st, tr)
   <-> Forall (settled st) (link_contacts model st))
  /\ (neighbor_search model (cell st) 5 = [] ->
      Src.assign_connections model st tr = (Normal st, tr)).
Proof.
  assert (Hback : Forall (settled st) (link_contacts model st) ->
                  Src.assign_connections model st tr = (Normal st, tr)).
  { intros Hall. unfold Src.assign_connections, mbind, M_bind, bind.
    fold (link_contacts model st). by rewrite for_each_settled. }
  split; [split; [|done]|].
  - intros Hid.
    destruct (assign_connections_run model st tr)
      as (acc & st' & Hrun & _ & _ & Hconn & _ & _ & Hset).
    rewrite Hrun in Hid. injection Hid as -> _. done.
  - intros Hempty. apply Hback. unfold link_contacts. rewrite Hempty.
    constructor.
Qed.

Lemma connects_sym a b conn :
  connects a b conn = connects b a conn.
Proof. unfold connects. apply orb_comm. Qed.

(** X7: the decision does not depend on which of the two atoms the
    neighbour search names first: a contact is passed over exactly when
    the contact with its atoms exchanged is. *)
Theorem link_decision_symmetric (c : Contact) (st : Structure) (k : Z)
    (tr : list Event) :
  Src.on_contact c (st, k) tr = (Normal (st, k), tr)
  <-> Src.on_contact (swapped c) (st, k) tr = (Normal (st, k), tr).
Proof.
  assert (Hskip : forall c0,
            Src.on_contact c0 (st, k) tr = (Normal (st, k), tr)
            <-> settled st c0).
  { intros c0. split.
    - intros Hrun.
      destruct (Qlt_le_dec (sq_double (bond_threshold c0)) (dist_sq c0)) as [Hlt|Hle].
      + left. by apply Qlt_not_le.
      + destruct (find_connection_by_cra st (cra1 c0) (cra2 c0)) eqn:Hf.
        * right. by eexists.
        * rewrite on_contact_accept in Hrun by done.
          injection Hrun as _ _ Htr.
          apply (f_equal length) in Htr. rewrite length_app in Htr.
          simpl in Htr. lia.
    - intros [Hfar|Hknown];
        [by apply on_contact_reject|by apply on_contact_known]. }
  rewrite !Hskip. unfold settled.
  assert (bond_threshold (swapped c) = bond_threshold c) as Hthr.
  { unfold bond_threshold, swapped, float_add. simpl. f_equal.
    apply round_compat. ring. }
  assert (is_Some (find_connection_by_cra st (cra1 (swapped c)) (cra2 (swapped c)))
          <-> is_Some (find_connection_by_cra st (cra1 c) (cra2 c))) as Hfind.
  { rewrite !find_connection_is_Some. simpl.
    split; intros (conn & Hin & Hc); exists conn; (split; [done|]);
      by rewrite connects_sym. }
  unfold within_threshold. simpl dist_sq. rewrite Hthr, Hfind. done.
Qed.

End LinkDetectionMore.

(** * The outcome of a run *)

Lemma quiet_nil : quiet [].
Proof. constructor. Qed.

Lemma quiet_app tr1 tr2 : quiet tr1 -> quiet tr2 -> quiet (tr1 ++ tr2).
Proof. unfold quiet. intros. by apply Forall_app. Qed.

Lemma bind_cases {A B} (m : M A) (k : A -> M B) (tr : list Event)
    (c : Control B) (tr' : list Event) :
  mbind (M := M) k m tr = (c, tr') ->
  (exists a tr1, m tr = (Normal a, tr1) /\ k a tr1 = (c, tr'))
  \/ (exists code, m tr = (Returned code, tr') /\ c = Returned code)
  \/ (exists what, m tr = (Thrown what, tr') /\ c = Thrown what).
Proof.
  unfold mbind, M_bind, bind.
  destruct (m tr) as [[a|code|what] tr1].
  - intros Hk. left. by exists a, tr1.
  - intros [= <- <-]. right. left. by exists code.
  - intros [= <- <-]. right. right. by exists what.
Qed.

Lemma orderly_ret {A} (a : A) : orderly (ret a).
Proof.
  intros tr c tr' Hrun. unfold ret in Hrun. injection Hrun as <- <-.
  split; [done|]. exists []. split; [by rewrite app_nil_r|constructor].
Qed.

Lemma orderly_fail {A} what : orderly (@fail A what).
Proof.
  intros tr c tr' Hrun. unfold fail in Hrun. injection Hrun as <- <-.
  split; [done|]. exists []. split; [by rewrite app_nil_r|constructor].
Qed.

Lemma orderly_emit e : is_stderr e = false -> orderly (emit e).
Proof.
  intros He tr c tr' Hrun. unfold emit in Hrun. injection Hrun as <- <-.
  split; [done|]. exists [e]. split; [done|]. by repeat constructor.
Qed.

Lemma orderly_printf line : orderly (printf line).
Proof. by apply orderly_emit. Qed.

Lemma orderly_when b m : orderly m -> orderly (when b m).
Proof. destruct b; [done|]. intros _. apply orderly_ret. Qed.

Lemma orderly_bind {A B} (m : M A) (k : A -> M B) :
  orderly m -> (forall a, orderly (k a)) -> orderly (mbind (M := M) k m).
Proof.
  intros Hm Hk tr c tr' Hrun.
  apply bind_cases in Hrun
    as [(a & tr1 & Hma & Hka)|[(code & Hma & ->)|(what & Hma & ->)]].
  - apply Hm in Hma as (_ & out1 & -> & Hq1).
    apply Hk in Hka as (Hc & out2 & -> & Hq2).
    split; [done|]. exists (out1 ++ out2).
    split; [by rewrite app_assoc|by apply quiet_app].
  - apply Hm in Hma as (Hc & _). by destruct (Hc code).
  - apply Hm in Hma as (_ & out & -> & Hq). split; [done|]. by exists out.
Qed.

Lemma orderly_for_each {A S} (xs : list A) (body : A -> S -> M S) (s : S) :
  (forall x s0, orderly (body x s0)) -> orderly (for_each xs body s).
Proof.
  intros Hbody. revert s. induction xs as [|x xs IH]; intros s.
  - apply orderly_ret.
  - simpl. apply orderly_bind; [apply Hbody|]. intros s'. apply IH.
Qed.

Lemma orderly_read_monomer_cif w path monlib :
  orderly (read_monomer_cif w path monlib).
Proof.
  unfold read_monomer_cif.
  apply orderly_bind; [by apply orderly_emit|]. intros _.
  destruct (read_cif_gz w path); [apply orderly_ret|apply orderly_fail].
Qed.

Lemma orderly_read_monomer_lib w dir names monlib :
  orderly (read_monomer_lib w dir names monlib).
Proof.
  revert monlib. induction names as [|name names IH]; intros monlib.
  - apply orderly_ret.
  - simpl. apply orderly_bind; [by apply orderly_emit|]. intros _.
    destruct (monomer_source w dir name); [apply IH|].
    apply orderly_bind; [apply IH|]. intros [[ml ok] err]. apply orderly_ret.
Qed.

Section Outcome.
Context `{Externals}.

Lemma orderly_read_user_file w verbose st_doc path monlib :
  orderly (Prog.read_user_file w verbose st_doc path monlib).
Proof.
  unfold Prog.read_user_file.
  apply orderly_bind; [apply orderly_when, orderly_printf|]. intros _.
  destruct (String.eqb path "+");
    [apply orderly_ret|apply orderly_read_monomer_cif].
Qed.

Lemma orderly_resolve_monomers w p dir st_doc model0 :
  orderly (Prog.resolve_monomers w p dir st_doc model0).
Proof.
  unfold Prog.resolve_monomers.
  apply orderly_bind.
  { apply orderly_for_each. intros. apply orderly_read_user_file. }
  intros over.
  apply orderly_bind; [apply orderly_when, orderly_printf|]. intros _.
  apply orderly_bind; [apply orderly_when, orderly_printf|]. intros _.
  apply orderly_bind; [apply orderly_read_monomer_lib|]. intros [[ml ok] err].
  apply orderly_bind; [apply orderly_when, orderly_printf|]. intros _.
  apply orderly_bind.
  { apply orderly_for_each. intros. apply orderly_read_user_file. }
  intros low. apply orderly_ret.
Qed.

Lemma orderly_missing_monomers p model0 needed monlib :
  orderly (Prog.missing_monomers p model0 needed monlib).
Proof.
  unfold Prog.missing_monomers. destruct needed as [|n needed].
  { apply orderly_ret. }
  apply orderly_bind.
  { apply orderly_for_each. intros. apply orderly_printf. }
  intros _. apply orderly_bind.
  { destruct (negb _); [apply orderly_fail|apply orderly_ret]. }
  intros _. unfold Prog.adhoc_restraints.
  apply orderly_bind; [apply orderly_printf|]. intros _.
  apply orderly_bind; [apply orderly_printf|]. intros _.
  apply orderly_ret.
Qed.

Lemma orderly_on_contact c s : orderly (Src.on_contact c s).
Proof.
  destruct s as [st k]. unfold Src.on_contact.
  destruct (Qgtb _ _); [apply orderly_ret|].
  destruct (find_connection_by_cra _ _ _); [apply orderly_ret|].
  apply orderly_bind; [apply orderly_printf|]. intros _. apply orderly_ret.
Qed.

Lemma orderly_assign_connections model st :
  orderly (Src.assign_connections model st).
Proof.
  unfold Src.assign_connections.
  apply orderly_bind.
  { apply orderly_for_each. intros. apply orderly_on_contact. }
  intros [st' k]. apply orderly_ret.
Qed.

End Outcome.

Section ExitStatus.
Context `{Externals}.

Lemma prog_main_body_outcome w p dir c tr' :
  Prog.main_body w p dir [] = (c, tr') -> body_outcome c tr'.
Proof.
  unfold Prog.main_body. intros Hrun.
  apply bind_cases in Hrun
    as [(u & tr1 & Hw & Hrest)|[(code & Hw & _)|(what & Hw & _)]];
    [|rewrite when_printf in Hw; discriminate Hw..].
  rewrite when_printf in Hw. injection Hw as _ <-.
  rewrite ?app_nil_l in Hrest.
  set (pre := if opt_verbose p
              then [Stdout ("Reading " +:+ input p +:+ " ...")]
              else []) in *.
  assert (quiet pre) as Hq1.
  { subst pre. destruct (opt_verbose p); by repeat constructor. }
  destruct (read_structure_gz w (input p)) as [[st st_doc]|].
  2:{ unfold fail in Hrest. injection Hrest as <- <-.
      eexists. split; [exact Hq1|]. left. split; [right; by eexists|]. done. }
  destruct (models st) as [|model0 rest].
  { unfold mbind, M_bind, bind, eprintf, emit, return_ in Hrest.
    injection Hrest as <- <-.
    exists pre. split; [exact Hq1|]. right. done. }
  assert (orderly
    (mbind (M := M)
       (fun '(monlib, needed) =>
          mbind (M := M) (fun monlib0 => ret (monlib0, st))
                (Prog.missing_monomers p model0 needed monlib))
       (Prog.resolve_monomers w p dir st_doc model0))) as Hord.
  { apply orderly_bind; [apply orderly_resolve_monomers|].
    intros [ml needed].
    apply orderly_bind; [apply orderly_missing_monomers|].
    intros ml'. apply orderly_ret. }
  apply Hord in Hrest as (Hc & out & -> & Hq).
  exists (pre ++ out). split; [by apply quiet_app|]. left. split; [|done].
  destruct c as [r|code|what]; [left; by eexists|by destruct (Hc code)|].
  right. by eexists.
Qed.

Lemma src_main_body_outcome w p dir c tr' :
  Src.main_body w p dir [] = (c, tr') -> body_outcome c tr'.
Proof.
  unfold Src.main_body. intros Hrun.
  apply bind_cases in Hrun
    as [(u & tr1 & Hw & Hrest)|[(code & Hw & _)|(what & Hw & _)]];
    [|rewrite when_printf in Hw; discriminate Hw..].
  rewrite when_printf in Hw. injection Hw as _ <-.
  rewrite ?app_nil_l in Hrest.
  set (pre := if opt_verbose p
              then [Stdout ("Reading " +:+ input p +:+ " ...")]
              else []) in *.
  assert (quiet pre) as Hq1.
  { subst pre. destruct (opt_verbose p); by repeat constructor. }
  destruct (read_structure_gz w (input p)) as [[st st_doc]|].
  2:{ unfold fail in Hrest. injection Hrest as <- <-.
      exists pre. split; [exact Hq1|]. left. split; [right; by eexists|done]. }
  destruct (models st) as [|model0 rest].
  { unfold mbind, M_bind, bind, eprintf, emit, return_ in Hrest.
    injection Hrest as <- <-.
    exists pre. split; [exact Hq1|]. right. done. }
  match type of Hrest with ?m _ = _ => assert (orderly m) as Hord end.
  { apply orderly_bind.
    { destruct (opt_libin p) as [|libin ?]; [apply orderly_ret|].
      apply orderly_bind; [apply orderly_when, orderly_printf|]. intros _.
      apply orderly_read_monomer_cif. }
    intros over.
    apply orderly_bind; [apply orderly_when, orderly_printf|]. intros _.
    apply orderly_bind; [apply orderly_read_monomer_lib|]. intros [[ml ok] err].
    apply orderly_bind.
    { destruct (negb ok); [|apply orderly_ret].
      apply orderly_bind; [apply orderly_printf|]. intros _.
      apply orderly_bind.
      { destruct (negb _); [apply orderly_fail|apply orderly_ret]. }
      intros _.
      apply orderly_bind; [apply orderly_printf|]. intros _.
      apply orderly_bind; [apply orderly_printf|]. intros _.
      apply orderly_ret. }
    intros ml'.
    apply orderly_bind.
    { destruct (is_yes _ _); [apply orderly_assign_connections|apply orderly_ret]. }
    intros st'. apply orderly_ret. }
  apply Hord in Hrest as (Hc & out & -> & Hq).
  exists (pre ++ out). split; [by apply quiet_app|]. left. split; [|done].
  destruct c as [r|code|what]; [left; by eexists|by destruct (Hc code)|].
  right. by eexists.
Qed.

Lemma try_catch_status (body : M (MonLib * Structure)) :
  (forall c tr', body [] = (c, tr') -> body_outcome c tr') ->
  let r := try_catch body in
  (exit_code r = 0%Z /\ is_Some (prepared r) /\ quiet (trace r))
  \/ (exit_code r = 1%Z /\ prepared r = None
      /\ exists out line,
           trace r = out ++ [Stderr line] /\ quiet out
           /\ (line = no_models \/ exists what, line = "ERROR: " +:+ what)).
Proof.
  intros Hbody. unfold try_catch.
  destruct (body []) as [c tr'] eqn:Hrun.
  destruct (Hbody c tr' eq_refl) as (out & Hq & [[[[r ->]|[what ->]] ->]|[-> ->]]);
    simpl.
  - left. split; [done|]. split; [by eexists|done].
  - right. split; [done|]. split; [done|].
    exists out, ("ERROR: " +:+ what). split; [done|]. split; [done|].
    right. by eexists.
  - right. split; [done|]. split; [done|].
    exists out, no_models. split; [done|]. split; [done|]. by left.
Qed.

(** X8: how a run of prog/prep.cpp can end.  With status 0 the prepared
    data exist and nothing was written to the error stream.  Otherwise
    the status is 1, nothing is prepared, and the error stream holds
    exactly one line, the last event of the run: the request to set the
    monomer directory (then nothing else happened, and the directory was
    unset or empty), the complaint about a file without models, or
    [ERROR:] with the message of an exception. *)
Theorem prog_exit_status (w : World) (p : Options) :
  let r := Prog.GEMMI_MAIN w p in
  (exit_code r = 0%Z /\ is_Some (prepared r) /\ quiet (trace r))
  \/ (exit_code r = 1%Z /\ prepared r = None
      /\ exists out line,
           trace r = out ++ [Stderr line] /\ quiet out
           /\ (line = config_error /\ out = []
               /\ (monomer_dir w p = None \/ monomer_dir w p = Some "")
               \/ line = no_models
               \/ exists what, line = "ERROR: " +:+ what)).
Proof.
  unfold Prog.GEMMI_MAIN.
  destruct (monomer_dir w p) as [[|ch dir]|] eqn:Hdir.
  - right. simpl. split; [done|]. split; [done|].
    exists [], config_error. split; [done|]. split; [constructor|].
    left. split; [done|]. split; [done|]. by right.
  - destruct (try_catch_status (Prog.main_body w p (String ch dir))
                (prog_main_body_outcome w p (String ch dir)))
      as [Hok|(Hone & Hnone & out & line & Htr & Hq & Hline)]; [by left|].
    right. split; [done|]. split; [done|]. exists out, line.
    split; [done|]. split; [done|]. by right.
  - right. simpl. split; [done|]. split; [done|].
    exists [], config_error. split; [done|]. split; [constructor|].
    left. split; [done|]. split; [done|]. by left.
Qed.

(** X9: how a run of src/prep.cpp can end, link detection included: with
    status 0 and a silent error stream, or with status 1, nothing
    prepared and exactly one line on the error stream, the last event of
    the run, of the same three kinds. *)
Theorem src_exit_status (w : World) (p : Options) :
  let r := Src.GEMMI_MAIN w p in
  (exit_code r = 0%Z /\ is_Some (prepared r) /\ quiet (trace r))
  \/ (exit_code r = 1%Z /\ prepared r = None
      /\ exists out line,
           trace r = out ++ [Stderr line] /\ quiet out
           /\ (line = config_error /\ out = []
               /\ (monomer_dir w p = None \/ monomer_dir w p = Some "")
               \/ line = no_models
               \/ exists what, line = "ERROR: " +:+ what)).
Proof.
  unfold Src.GEMMI_MAIN.
  destruct (monomer_dir w p) as [[|ch dir]|] eqn:Hdir.
  - right. simpl. split; [done|]. split; [done|].
    exists [], config_error. split; [done|]. split; [constructor|].
    left. split; [done|]. split; [done|]. by right.
  - destruct (try_catch_status (Src.main_body w p (String ch dir))
                (src_main_body_outcome w p (String ch dir)))
      as [Hok|(Hone & Hnone & out & line & Htr & Hq & Hline)]; [by left|].
    right. split; [done|]. split; [done|]. exists out, line.
    split; [done|]. split; [done|]. by right.
  - right. simpl. split; [done|]. split; [done|].
    exists [], config_error. split; [done|]. split; [constructor|].
    left. split; [done|]. split; [done|]. by left.
Qed.

End ExitStatus.

(** * Further properties of monomer resolution *)

Lemma io_events_app tr1 tr2 :
  io_events (tr1 ++ tr2) = io_events tr1 ++ io_events tr2.
Proof. apply filter_app. Qed.

Lemma io_events_when (b : bool) line tr :
  io_events (tr ++ if b then [Stdout line] else []) = io_events tr.
Proof.
  rewrite io_events_app. destruct b; simpl; by rewrite app_nil_r.
Qed.

Lemma io_events_queries dir names :
  io_events (MonomerQuery dir <$> names) = MonomerQuery dir <$> names.
Proof.
  induction names as [|n names IH]; [done|].
  change (io_events (MonomerQuery dir <$> n :: names))
    with (MonomerQuery dir n :: io_events (MonomerQuery dir <$> names)).
  by rewrite IH.
Qed.

Lemma read_monomer_lib_defines w dir names monlib tr monlib' ok error tr' n cc :
  read_monomer_lib w dir names monlib tr = (Normal (monlib', ok, error), tr') ->
  n ∈ names -> monomer_source w dir n = Some cc ->
  is_Some (monomers monlib' !! n).
Proof.
  revert monlib tr ok error tr'. induction names as [|name rest IH];
    intros monlib tr ok error tr' Hrun Hin Hsrc.
  { by apply elem_of_nil in Hin. }
  simpl in Hrun. apply bind_Normal in Hrun as (u & tr1 & _ & Hrun).
  destruct (decide (name = n)) as [->|Hne].
  - rewrite Hsrc in Hrun.
    destruct (read_monomer_lib_run w dir rest (emplace n cc monlib) tr1)
      as (ml & ok' & err' & Hrun' & Hsub & _).
    rewrite Hrun' in Hrun. injection Hrun as <- _ _ _.
    assert (is_Some (monomers (emplace n cc monlib) !! n)) as [d Hd].
    { rewrite emplace_lookup. destruct (monomers monlib !! n); [done|].
      by rewrite decide_True. }
    exists d. by eapply lookup_weaken.
  - apply elem_of_cons in Hin as [->|Hin]; [done|].
    destruct (monomer_source w dir name).
    + exact (IH _ _ _ _ _ Hrun Hin Hsrc).
    + apply bind_Normal in Hrun as ([[ml ok0] err0] & tr2 & Hrun & Hret).
      injection Hret as <- _ _ _. exact (IH _ _ _ _ _ Hrun Hin Hsrc).
Qed.

Section ResolutionStages.
Context `{Externals}.

Lemma read_user_file_io w verbose st_doc path monlib tr monlib' tr' :
  Prog.read_user_file w verbose st_doc path monlib tr = (Normal monlib', tr') ->
  io_events tr' = io_events tr ++ (ReadCif <$> files [path]).
Proof.
  unfold Prog.read_user_file.
  intros (u & tr1 & Hwhen & Hread)%bind_Normal.
  rewrite when_printf in Hwhen. injection Hwhen as _ <-.
  unfold files. rewrite filter_cons, filter_nil.
  destruct (String.eqb_spec path "+") as [->|Hne].
  - injection Hread as _ <-. rewrite decide_False by (by intros Hp; apply Hp).
    simpl. by rewrite io_events_when, app_nil_r.
  - apply read_monomer_cif_Normal in Hread as (doc & _ & _ & ->).
    rewrite decide_True by done.
    by rewrite io_events_app, io_events_when.
Qed.

Lemma read_user_files_io w verbose st_doc paths monlib tr monlib' tr' :
  for_each paths (Prog.read_user_file w verbose st_doc) monlib tr
  = (Normal monlib', tr') ->
  io_events tr' = io_events tr ++ (ReadCif <$> files paths).
Proof.
  revert monlib tr. induction paths as [|path paths IH]; intros monlib tr.
  - intros [= <- <-]. by rewrite app_nil_r.
  - simpl. intros (ml1 & tr1 & Hone & Hrest)%bind_Normal.
    apply read_user_file_io in Hone. apply IH in Hrest.
    rewrite Hrest, Hone, <- app_assoc, <- fmap_app. do 2 f_equal.
    unfold files. by rewrite (filter_app _ [path] paths).
Qed.

(** A completed resolution, stage by stage. *)
Lemma resolve_monomers_stages w p dir st_doc model0 tr monlib needed tr' :
  Prog.resolve_monomers w p dir st_doc model0 tr = (Normal (monlib, needed), tr') ->
  exists overrides tr1 tr2 installed ok error tr3,
    for_each (opt_libin p) (Prog.read_user_file w (opt_verbose p) st_doc)
             {| monomers := ∅ |} tr = (Normal overrides, tr1)
    /\ io_events tr2 = io_events tr1
    /\ read_monomer_lib w dir
         (vector_remove_if (count overrides) (get_all_residue_names model0))
         overrides tr2
       = (Normal (installed, ok, error),
          tr2 ++ (MonomerQuery dir <$>
            vector_remove_if (count overrides) (get_all_residue_names model0)))
    /\ io_events tr3
       = io_events tr2
         ++ (MonomerQuery dir <$>
              vector_remove_if (count overrides) (get_all_residue_names model0))
    /\ for_each (opt_libin2 p) (Prog.read_user_file w (opt_verbose p) st_doc)
                installed tr3 = (Normal monlib, tr')
    /\ needed = vector_remove_if (count monlib) (get_all_residue_names model0).
Proof.
  unfold Prog.resolve_monomers.
  intros (overrides & tr1 & Hover & Hrest)%bind_Normal.
  apply bind_Normal in Hrest as (u1 & t2 & Hw1 & Hrest).
  rewrite when_printf in Hw1. injection Hw1 as _ <-.
  apply bind_Normal in Hrest as (u2 & t3 & Hw2 & Hrest).
  rewrite when_printf in Hw2. injection Hw2 as _ <-.
  apply bind_Normal in Hrest as ([[installed ok] error] & t4 & Hlib & Hrest).
  edestruct (read_monomer_lib_run w dir) as (ml & ok' & err' & Hrun & Hsub & _).
  pose proof Hlib as Hlib'.
  rewrite Hrun in Hlib'. injection Hlib' as -> -> -> <-.
  apply bind_Normal in Hrest as (u3 & t5 & Hw3 & Hrest).
  rewrite when_printf in Hw3. injection Hw3 as _ <-.
  apply bind_Normal in Hrest as (low & t6 & Hlow & Hret).
  injection Hret as <- <- <-.
  do 7 eexists. split; [exact Hover|]. split; [|split; [exact Hrun|]].
  { by rewrite !io_events_when. }
  split; [|split; [exact Hlow|]].
  { by rewrite io_events_when, io_events_app, io_events_queries. }
  apply read_user_files_Normal in Hover as (Hs1 & _).
  apply read_user_files_Normal in Hlow as (Hs2 & _).
  apply vector_remove_if_count. etrans; [exact Hsub|exact Hs2].
Qed.

(** X10: the files and the installed library are consulted in a fixed
    order.  In a resolution that completes, each [--lib] file is read
    once, in the order given, then the installed library is asked for the
    names the [--lib] files left undefined, then each [--low] file is read
    once; the argument [+] reads no file. *)
Theorem resolution_io_order (w : World) (p : Options) (dir : string)
    (st_doc : Document) (model0 : Model) (tr : list Event)
    (monlib : MonLib) (needed : list string) (tr' : list Event) :
  Prog.resolve_monomers w p dir st_doc model0 tr = (Normal (monlib, needed), tr') ->
  exists overrides tr1,
    for_each (opt_libin p) (Prog.read_user_file w (opt_verbose p) st_doc)
             {| monomers := ∅ |} tr = (Normal overrides, tr1)
    /\ io_events tr'
       = io_events tr
         ++ (ReadCif <$> files (opt_libin p))
         ++ (MonomerQuery dir <$>
              filter (fun n => monomers overrides !! n = None)
                     (get_all_residue_names model0))
         ++ (ReadCif <$> files (opt_libin2 p)).
Proof.
  intros Hrun.
  apply resolve_monomers_stages in Hrun
    as (over & tr1 & tr2 & inst & ok & err & tr3 & Hover & Hio2 & _ & Hio3
        & Hlow & _).
  exists over, tr1. split; [done|].
  apply read_user_files_io in Hover. apply read_user_files_io in Hlow.
  rewrite Hlow, Hio3, Hio2, Hover, <- !app_assoc. do 3 f_equal.
  unfold vector_remove_if. f_equal.
  apply list_filter_iff. intros n. apply count_false.
Qed.

(** X11: a residue name is reported missing exactly when nothing defines
    it: it is a residue name of the model, no [--lib] file and no [--low]
    file holds a definition of that name, and the installed library has
    none. *)
Theorem missing_iff_undefined (w : World) (p : Options) (dir : string)
    (st_doc : Document) (model0 : Model) (tr : list Event)
    (monlib : MonLib) (needed : list string) (tr' : list Event) :
  Prog.resolve_monomers w p dir st_doc model0 tr = (Normal (monlib, needed), tr') ->
  forall n,
    n ∈ needed <->
    n ∈ get_all_residue_names model0
    /\ ~ defined_in w st_doc (opt_libin p) n
    /\ ~ defined_in w st_doc (opt_libin2 p) n
    /\ monomer_source w dir n = None.
Proof.
  intros Hrun n.
  apply resolve_monomers_stages in Hrun
    as (over & tr1 & tr2 & inst & ok & err & tr3 & Hover & _ & Hlib & _
        & Hlow & ->).
  destruct (read_monomer_lib_run w dir
              (vector_remove_if (count over) (get_all_residue_names model0))
              over tr2) as (ml & ok' & err' & Hlib' & Hsub & Horig & _).
  rewrite Hlib in Hlib'. injection Hlib' as <- <- <-.
  apply read_user_files_Normal in Hover as (_ & _ & Horig1 & Hdef1).
  pose proof Hlow as Hlow'.
  apply read_user_files_Normal in Hlow' as (Hsub2 & _ & Horig2 & Hdef2).
  unfold vector_remove_if at 1. rewrite list_elem_of_filter, count_false.
  split.
  - intros [Hnone Hin]. split; [done|].
    assert (monomers inst !! n = None) as Hinst.
    { destruct (monomers inst !! n) eqn:Hd; [|done].
      apply (lookup_weaken _ _ _ _ Hd) in Hsub2. congruence. }
    assert (monomers over !! n = None) as Hov.
    { destruct (monomers over !! n) eqn:Hd; [|done].
      apply (lookup_weaken _ _ _ _ Hd) in Hsub. congruence. }
    split; [|split].
    + intros (path & doc & d & Hp & Hdoc & Hd & Hname).
      destruct (Hdef1 path Hp) as (doc' & Hdoc' & Hall).
      rewrite Hdoc in Hdoc'. injection Hdoc' as <-.
      destruct (Hall d Hd) as [x Hx]. rewrite Hname in Hx. congruence.
    + intros (path & doc & d & Hp & Hdoc & Hd & Hname).
      destruct (Hdef2 path Hp) as (doc' & Hdoc' & Hall).
      rewrite Hdoc in Hdoc'. injection Hdoc' as <-.
      destruct (Hall d Hd) as [x Hx]. rewrite Hname in Hx. congruence.
    + destruct (monomer_source w dir n) as [cc|] eqn:Hsrc; [|done].
      exfalso.
      assert (is_Some (monomers inst !! n)) as [x Hx]; [|congruence].
      eapply read_monomer_lib_defines; [exact Hlib| |exact Hsrc].
      unfold vector_remove_if. rewrite list_elem_of_filter, count_false. done.
  - intros (Hin & Hnlib & Hnlow & Hsrc). split; [|done].
    destruct (monomers monlib !! n) as [d|] eqn:Hd; [|done].
    exfalso. apply Horig2 in Hd as [Hd|(path & doc & Hp & Hdoc & Hd & Hname)].
    2:{ apply Hnlow. by exists path, doc, d. }
    apply Horig in Hd as [Hd|[_ Hd]]; [|congruence].
    apply Horig1 in Hd as [Hd|(path & doc & Hp & Hdoc & Hd & Hname)].
    { simpl in Hd. by rewrite lookup_empty in Hd. }
    apply Hnlib. by exists path, doc, d.
Qed.

(** X12: a run of prog/prep.cpp that gets past the monomer stage has a
    definition for every residue of the first model, from a library or
    made ad hoc. *)
Theorem prepared_library_complete (w : World) (p : Options) (monlib : MonLib)
    (st : Structure) :
  prepared (Prog.GEMMI_MAIN w p) = Some (monlib, st) ->
  exists model0 rest,
    models st = model0 :: rest
    /\ forall r, r ∈ all_residues model0 ->
         is_Some (monomers monlib !! res_name r).
Proof.
  unfold Prog.GEMMI_MAIN.
  destruct (monomer_dir w p) as [[|ch dir]|]; [done| |done].
  unfold try_catch.
  destruct (Prog.main_body w p (String ch dir) []) as [[[ml st'']| |] tr'] eqn:Hrun;
    [|done..].
  simpl. intros [= -> ->].
  apply prog_pipeline_grows in Hrun
    as (st_doc & model0 & rest & over & tr1 & resolved & needed & tr2 & _
        & Hmodels & _ & Hres & Hmiss & _ & Hsub).
  exists model0, rest. split; [done|]. intros r Hr.
  destruct (monomers resolved !! res_name r) as [d|] eqn:Hd.
  { exists d. by eapply lookup_weaken. }
  apply resolve_monomers_stages in Hres
    as (_ & _ & _ & _ & _ & _ & _ & _ & _ & _ & _ & _ & Hneeded).
  assert (res_name r ∈ needed) as Hin.
  { rewrite Hneeded. unfold vector_remove_if.
    rewrite list_elem_of_filter, count_false. split; [done|].
    apply get_all_residue_names_elem. by exists r. }
  rewrite missing_monomers_run in Hmiss.
  2:{ intros ->. by apply elem_of_nil in Hin. }
  destruct (is_yes (opt_auto_ligand p) false); [|done].
  injection Hmiss as <- _.
  rewrite adhoc_loop_lookup, Hd, decide_True by done.
  pose proof (find_most_complete_residue_scan (res_name r) model0) as Hscan.
  destruct (find_most_complete_residue (res_name r) model0); [by eexists|].
  exfalso. by eapply Hscan.
Qed.

(** X13: in src/prep.cpp link detection is applied only on request, and
    then to the first model.  When a run gets through, the structure it
    has is the structure as read if [--auto-link] is off or absent, and
    the result of [assign_connections] on the first model if it is on. *)
Theorem auto_link_only_on_request (w : World) (p : Options) (monlib : MonLib)
    (st' : Structure) :
  prepared (Src.GEMMI_MAIN w p) = Some (monlib, st') ->
  exists st st_doc model0 rest,
    read_structure_gz w (input p) = Some (st, st_doc)
    /\ models st = model0 :: rest
    /\ (is_yes (opt_auto_link p) false = false -> st' = st)
    /\ (is_yes (opt_auto_link p) false = true ->
        exists tr tr', Src.assign_connections model0 st tr = (Normal st', tr')).
Proof.
  unfold Src.GEMMI_MAIN.
  destruct (monomer_dir w p) as [[|ch dir]|]; [done| |done].
  unfold try_catch.
  destruct (Src.main_body w p (String ch dir) []) as [[[ml st'']| |] tr'] eqn:Hrun;
    [|done..].
  simpl. intros [= -> ->].
  unfold Src.main_body in Hrun.
  apply bind_Normal in Hrun as (u & tr0 & Hw & Hbody).
  destruct (read_structure_gz w (input p)) as [[st st_doc]|]; [|done].
  destruct (models st) as [|model0 rest] eqn:Hmodels.
  { apply bind_Normal in Hbody as (? & ? & _ & Hret). done. }
  apply bind_Normal in Hbody as (over & tr1 & Hover & Hbody).
  apply bind_Normal in Hbody as (u2 & tr2 & Hw2 & Hbody).
  apply bind_Normal in Hbody as ([[inst ok] err] & tr3 & Hlib & Hbody).
  apply bind_Normal in Hbody as (ml & tr4 & Hsyn & Hbody).
  apply bind_Normal in Hbody as (st2 & tr5 & Hlink & Hret).
  injection Hret as <- <- <-.
  exists st, st_doc, model0, rest. split; [done|]. split; [done|].
  destruct (is_yes (opt_auto_link p) false).
  - split; [done|]. intros _. by exists tr4, tr5.
  - split; [|done]. intros _. by injection Hlink as <- _.
Qed.

End ResolutionStages.

(** * What [--verbose] changes *)

Lemma loud_app tr1 tr2 : loud (tr1 ++ tr2) = loud tr1 ++ loud tr2.
Proof. apply filter_app. Qed.

Lemma alike_ret {A} (a : A) : alike (ret a) (ret a).
Proof.
  intros tr1 tr2. exists (Normal a), [], []. unfold ret.
  by rewrite !app_nil_r.
Qed.

Lemma alike_fail {A} what : alike (@fail A what) (@fail A what).
Proof.
  intros tr1 tr2. exists (Thrown what), [], []. unfold fail.
  by rewrite !app_nil_r.
Qed.

Lemma alike_emit e : alike (emit e) (emit e).
Proof. intros tr1 tr2. by exists (Normal tt), [e], [e]. Qed.

Lemma alike_when_printf (b1 b2 : bool) line1 line2 :
  alike (when b1 (printf line1)) (when b2 (printf line2)).
Proof.
  intros tr1 tr2.
  exists (Normal tt), (if b1 then [Stdout line1] else []),
         (if b2 then [Stdout line2] else []).
  rewrite !when_printf. split; [done|]. split; [done|].
  by destruct b1, b2.
Qed.

Lemma alike_bind {A B} (m1 m2 : M A) (k1 k2 : A -> M B) :
  alike m1 m2 -> (forall a, alike (k1 a) (k2 a)) ->
  alike (mbind (M := M) k1 m1) (mbind (M := M) k2 m2).
Proof.
  intros Hm Hk tr1 tr2.
  destruct (Hm tr1 tr2) as (c & out1 & out2 & H1 & H2 & Hl).
  unfold mbind, M_bind, bind. rewrite H1, H2.
  destruct c as [a|code|what].
  - destruct (Hk a (tr1 ++ out1) (tr2 ++ out2))
      as (c' & o1 & o2 & H1' & H2' & Hl').
    exists c', (out1 ++ o1), (out2 ++ o2).
    rewrite H1', H2', !app_assoc. split; [done|]. split; [done|].
    by rewrite !loud_app, Hl, Hl'.
  - by exists (Returned code), out1, out2.
  - by exists (Thrown what), out1, out2.
Qed.

Lemma alike_for_each {A S} (xs : list A) (body1 body2 : A -> S -> M S) (s : S) :
  (forall x s0, alike (body1 x s0) (body2 x s0)) ->
  alike (for_each xs body1 s) (for_each xs body2 s).
Proof.
  intros Hbody. revert s. induction xs as [|x xs IH]; intros s.
  - apply alike_ret.
  - simpl. apply alike_bind; [apply Hbody|]. intros s'. apply IH.
Qed.

Lemma alike_read_monomer_cif w path monlib :
  alike (read_monomer_cif w path monlib) (read_monomer_cif w path monlib).
Proof.
  unfold read_monomer_cif. apply alike_bind; [apply alike_emit|]. intros _.
  destruct (read_cif_gz w path); [apply alike_ret|apply alike_fail].
Qed.

Lemma alike_read_monomer_lib w dir names monlib :
  alike (read_monomer_lib w dir names monlib)
        (read_monomer_lib w dir names monlib).
Proof.
  revert monlib. induction names as [|name names IH]; intros monlib.
  - apply alike_ret.
  - simpl. apply alike_bind; [apply alike_emit|]. intros _.
    destruct (monomer_source w dir name); [apply IH|].
    apply alike_bind; [apply IH|]. intros [[ml ok] err]. apply alike_ret.
Qed.

Section Verbose.
Context `{Externals}.

Lemma alike_read_user_file w v1 v2 st_doc path monlib :
  alike (Prog.read_user_file w v1 st_doc path monlib)
        (Prog.read_user_file w v2 st_doc path monlib).
Proof.
  unfold Prog.read_user_file.
  apply alike_bind; [apply alike_when_printf|]. intros _.
  destruct (String.eqb path "+");
    [apply alike_ret|apply alike_read_monomer_cif].
Qed.

Lemma alike_resolve_monomers w p dir st_doc model0 :
  alike (Prog.resolve_monomers w p dir st_doc model0)
        (Prog.resolve_monomers w (quietly p) dir st_doc model0).
Proof.
  unfold Prog.resolve_monomers. cbn [quietly opt_verbose opt_libin opt_libin2].
  apply alike_bind.
  { apply alike_for_each. intros. apply alike_read_user_file. }
  intros over.
  apply alike_bind; [apply alike_when_printf|]. intros _.
  apply alike_bind; [apply alike_when_printf|]. intros _.
  apply alike_bind; [apply alike_read_monomer_lib|]. intros [[ml ok] err].
  apply alike_bind; [apply alike_when_printf|]. intros _.
  apply alike_bind.
  { apply alike_for_each. intros. apply alike_read_user_file. }
  intros low. apply alike_ret.
Qed.

Lemma alike_missing_monomers p model0 needed monlib :
  alike (Prog.missing_monomers p model0 needed monlib)
        (Prog.missing_monomers (quietly p) model0 needed monlib).
Proof.
  unfold Prog.missing_monomers. cbn [quietly opt_auto_ligand].
  destruct needed as [|n needed]; [apply alike_ret|].
  apply alike_bind.
  { apply alike_for_each. intros. apply alike_emit. }
  intros _. apply alike_bind.
  { destruct (negb _); [apply alike_fail|apply alike_ret]. }
  intros _. unfold Prog.adhoc_restraints.
  apply alike_bind; [apply alike_emit|]. intros _.
  apply alike_bind; [apply alike_emit|]. intros _.
  apply alike_ret.
Qed.

Lemma alike_assign_connections model st :
  alike (Src.assign_connections model st) (Src.assign_connections model st).
Proof.
  unfold Src.assign_connections. apply alike_bind.
  { apply alike_for_each. intros c [st0 k]. unfold Src.on_contact.
    destruct (Qgtb _ _); [apply alike_ret|].
    destruct (find_connection_by_cra _ _ _); [apply alike_ret|].
    apply alike_bind; [apply alike_emit|]. intros _. apply alike_ret. }
  intros [st' k]. apply alike_ret.
Qed.

Lemma alike_no_models {A} :
  alike (A := A) (mbind (M := M) (fun _ => return_ 1) (eprintf no_models))
                 (mbind (M := M) (fun _ => return_ 1) (eprintf no_models)).
Proof.
  intros tr1 tr2.
  by exists (Returned 1), [Stderr no_models], [Stderr no_models].
Qed.

Lemma alike_prog_main_body w p dir :
  alike (Prog.main_body w p dir) (Prog.main_body w (quietly p) dir).
Proof.
  unfold Prog.main_body. cbn [quietly opt_verbose input].
  apply alike_bind; [apply alike_when_printf|]. intros _.
  destruct (read_structure_gz w (input p)) as [[st st_doc]|];
    [|apply alike_fail].
  destruct (models st) as [|model0 rest]; [apply alike_no_models|].
  apply alike_bind; [apply alike_resolve_monomers|]. intros [ml needed].
  apply alike_bind; [apply alike_missing_monomers|]. intros ml'.
  apply alike_ret.
Qed.

Lemma alike_src_main_body w p dir :
  alike (Src.main_body w p dir) (Src.main_body w (quietly p) dir).
Proof.
  unfold Src.main_body.
  cbn [quietly opt_verbose input opt_libin opt_auto_ligand opt_auto_link].
  apply alike_bind; [apply alike_when_printf|]. intros _.
  destruct (read_structure_gz w (input p)) as [[st st_doc]|];
    [|apply alike_fail].
  destruct (models st) as [|model0 rest]; [apply alike_no_models|].
  apply alike_bind.
  { destruct (opt_libin p) as [|libin ?]; [apply alike_ret|].
    apply alike_bind; [apply alike_when_printf|]. intros _.
    apply alike_read_monomer_cif. }
  intros over.
  apply alike_bind; [apply alike_when_printf|]. intros _.
  apply alike_bind; [apply alike_read_monomer_lib|]. intros [[ml ok] err].
  apply alike_bind.
  { destruct (negb ok); [|apply alike_ret].
    apply alike_bind; [apply alike_emit|]. intros _.
    apply alike_bind.
    { destruct (negb _); [apply alike_fail|apply alike_ret]. }
    intros _.
    apply alike_bind; [apply alike_emit|]. intros _.
    apply alike_bind; [apply alike_emit|]. intros _.
    apply alike_ret. }
  intros ml'.
  apply alike_bind.
  { destruct (is_yes _ _); [apply alike_assign_connections|apply alike_ret]. }
  intros st'. apply alike_ret.
Qed.

Lemma try_catch_alike (body1 body2 : M (MonLib * Structure)) :
  alike body1 body2 ->
  exit_code (try_catch body1) = exit_code (try_catch body2)
  /\ prepared (try_catch body1) = prepared (try_catch body2)
  /\ loud (trace (try_catch body1)) = loud (trace (try_catch body2)).
Proof.
  intros Halike. destruct (Halike [] []) as (c & out1 & out2 & H1 & H2 & Hl).
  unfold try_catch. rewrite H1, H2. simpl.
  destruct c; simpl; rewrite ?loud_app, ?Hl; done.
Qed.

(** X14: [--verbose] changes nothing but what prog/prep.cpp prints on the
    standard output: the exit status, the prepared library and structure,
    the files read, the names asked of the installed library and the
    error stream are those of the same run without it. *)
Theorem prog_verbose_only_prints (w : World) (p : Options) :
  exit_code (Prog.GEMMI_MAIN w p) = exit_code (Prog.GEMMI_MAIN w (quietly p))
  /\ prepared (Prog.GEMMI_MAIN w p) = prepared (Prog.GEMMI_MAIN w (quietly p))
  /\ loud (trace (Prog.GEMMI_MAIN w p))
     = loud (trace (Prog.GEMMI_MAIN w (quietly p))).
Proof.
  unfold Prog.GEMMI_MAIN.
  change (monomer_dir w (quietly p)) with (monomer_dir w p).
  destruct (monomer_dir w p) as [[|ch dir]|]; [done| |done].
  apply try_catch_alike, alike_prog_main_body.
Qed.

(** X15: the same for src/prep.cpp, link detection included. *)
Theorem src_verbose_only_prints (w : World) (p : Options) :
  exit_code (Src.GEMMI_MAIN w p) = exit_code (Src.GEMMI_MAIN w (quietly p))
  /\ prepared (Src.GEMMI_MAIN w p) = prepared (Src.GEMMI_MAIN w (quietly p))
  /\ loud (trace (Src.GEMMI_MAIN w p))
     = loud (trace (Src.GEMMI_MAIN w (quietly p))).
Proof.
  unfold Src.GEMMI_MAIN.
  change (monomer_dir w (quietly p)) with (monomer_dir w p).
  destruct (monomer_dir w p) as [[|ch dir]|]; [done| |done].
  apply try_catch_alike, alike_src_main_body.
Qed.

End Verbose.

(** * The further properties at work on the example world *)

Lemma adhoc_loop_outcome_witness :
  monomers {| monomers := ∅ |} !! "XYZ" = None
  /\ "XYZ" ∈ ["XYZ"]
  /\ ExampleRun.plain "XYZ" 4 4 ∈ all_residues ExampleRun.model0
  /\ exists res,
      find_most_complete_residue "XYZ" ExampleRun.model0 = Some res
      /\ monomers (@make_new_ligands Example.externals ExampleRun.model0
                     ["XYZ"] {| monomers := ∅ |}) !! "XYZ"
         = Some (@make_chemcomp_with_restraints Example.externals res).
Proof.
  assert (Hr : ExampleRun.plain "XYZ" 4 4 ∈ all_residues ExampleRun.model0).
  { apply list_elem_of_lookup_2 with 3%nat. reflexivity. }
  assert (Hnone : monomers {| monomers := ∅ |} !! "XYZ" = None) by reflexivity.
  split; [exact Hnone|]. split; [apply list_elem_of_here|]. split; [exact Hr|].
  apply (proj1 (proj2 (@adhoc_loop_outcome Example.externals ExampleRun.model0
                         ["XYZ"] {| monomers := ∅ |} "XYZ")) Hnone
           (list_elem_of_here _ _) (ExampleRun.plain "XYZ" 4 4) Hr eq_refl).
Defined.

Lemma make_new_ligands_same_names_witness :
  (forall n : string, n ∈ ["LIG"; "XYZ"; "LIG"] <-> n ∈ ["XYZ"; "LIG"])
  /\ @make_new_ligands Example.externals ExampleRun.model0
       ["LIG"; "XYZ"; "LIG"] {| monomers := ∅ |}
     = @make_new_ligands Example.externals ExampleRun.model0
         ["XYZ"; "LIG"] {| monomers := ∅ |}.
Proof.
  assert (Hsame : forall n : string,
            n ∈ ["LIG"; "XYZ"; "LIG"] <-> n ∈ ["XYZ"; "LIG"]).
  { intros n. rewrite !elem_of_cons, !elem_of_nil. tauto. }
  split; [exact Hsame|].
  exact (@make_new_ligands_same_names Example.externals ExampleRun.model0
           _ _ _ Hsame).
Defined.

Lemma links_not_repeated_witness :
  exists st' tr' new,
    @Src.assign_connections Example.externals Example.model0 Example.st0 []
    = (Normal st', tr')
    /\ connections st' = connections Example.st0 ++ new
    /\ forall conn old, new !! 1%nat = Some conn -> new !! 0%nat = Some old ->
         connects (partner1 conn) (partner2 conn) old = false.
Proof.
  destruct (@links_not_repeated Example.externals Example.model0 Example.st0 [])
    as (st' & tr' & new & Hrun & Hconn & Hfresh).
  exists st', tr', new. split; [exact Hrun|]. split; [exact Hconn|].
  intros conn old Hconn1 Hold. apply (Hfresh 1%nat conn Hconn1).
  apply elem_of_app. right. apply list_elem_of_lookup_2 with 0%nat.
  rewrite lookup_take_lt by lia. exact Hold.
Defined.

Lemma links_within_both_radii_witness :
  exists st' tr' new,
    @Src.assign_connections Example.externals Example.model0 Example.st0 []
    = (Normal st', tr')
    /\ connections st' = connections Example.st0 ++ new
    /\ (length new
        <= length (@neighbor_search Example.externals Example.model0
                     (cell Example.st0) 5))%nat.
Proof.
  destruct (@links_within_both_radii Example.externals Example.model0
              Example.st0 [])
    as (st' & tr' & new & Hrun & Hconn & Hlen & _).
  exists st', tr', new. split; [exact Hrun|]. split; [exact Hconn|exact Hlen].
Defined.

Lemma assign_connections_identity_witness :
  (@neighbor_search Example.externals {| chains := [] |} (cell Example.st0) 5
   = []
   /\ @Src.assign_connections Example.externals {| chains := [] |}
        Example.st0 []
      = (Normal Example.st0, []))
  /\ (Forall (@settled Example.externals (Example.structure_of Example.model_CH))
        (@link_contacts Example.externals Example.model_CH
           (Example.structure_of Example.model_CH))
      /\ @Src.assign_connections Example.externals Example.model_CH
           (Example.structure_of Example.model_CH) []
         = (Normal (Example.structure_of Example.model_CH), [])).
Proof.
  split.
  - split; [reflexivity|].
    apply (proj2 (@assign_connections_identity Example.externals
                    {| chains := [] |} Example.st0 [])).
    reflexivity.
  - assert (Hset : Forall (@settled Example.externals
                             (Example.structure_of Example.model_CH))
                     (@link_contacts Example.externals Example.model_CH
                        (Example.structure_of Example.model_CH))).
    { apply Forall_forall. intros c Hc. left.
      apply list_elem_of_In in Hc. vm_compute in Hc.
      destruct Hc as [<-|[]]. vm_compute. intros Hle. apply Hle. reflexivity. }
    split; [exact Hset|].
    exact (proj2 (proj1 (@assign_connections_identity Example.externals
                           Example.model_CH
                           (Example.structure_of Example.model_CH) [])) Hset).
Defined.

Lemma link_decision_symmetric_witness :
  @Src.on_contact Example.externals (Example.contact_SS 100) (Example.st0, 0%Z) []
  = (Normal (Example.st0, 0%Z), [])
  /\ @Src.on_contact Example.externals (swapped (Example.contact_SS 100))
       (Example.st0, 0%Z) []
     = (Normal (Example.st0, 0%Z), []).
Proof.
  assert (Hskip : @Src.on_contact Example.externals (Example.contact_SS 100)
                    (Example.st0, 0%Z) []
                  = (Normal (Example.st0, 0%Z), [])) by reflexivity.
  split; [exact Hskip|].
  exact (proj1 (@link_decision_symmetric Example.externals
                  (Example.contact_SS 100) Example.st0 0%Z []) Hskip).
Defined.

Lemma resolution_io_order_witness :
  exists monlib needed tr',
    Prog.resolve_monomers ExampleRun.world (ExampleRun.options None)
      "/opt/monomers" [] ExampleRun.model0 []
    = (Normal (monlib, needed), tr')
    /\ io_events tr'
       = [ReadCif "lig.cif"; MonomerQuery "/opt/monomers" "ALA";
          MonomerQuery "/opt/monomers" "XYZ"].
Proof.
  destruct (Prog.resolve_monomers ExampleRun.world (ExampleRun.options None)
              "/opt/monomers" [] ExampleRun.model0 [])
    as [[[monlib needed]|code|what] tr'] eqn:Hrun;
    [|vm_compute in Hrun; discriminate Hrun..].
  exists monlib, needed, tr'. split; [reflexivity|].
  destruct (resolution_io_order _ _ _ _ _ _ _ _ _ Hrun)
    as (over & tr1 & Hover & Hio).
  vm_compute in Hover. injection Hover as <- <-.
  rewrite Hio. vm_compute. reflexivity.
Defined.

Lemma missing_iff_undefined_witness :
  exists monlib needed tr',
    Prog.resolve_monomers ExampleRun.world (ExampleRun.options None)
      "/opt/monomers" [] ExampleRun.model0 []
    = (Normal (monlib, needed), tr')
    /\ "XYZ" ∈ needed
    /\ ~ defined_in ExampleRun.world [] ["lig.cif"] "XYZ"
    /\ @monomer_source ExampleRun.world "/opt/monomers" "XYZ" = None.
Proof.
  destruct (Prog.resolve_monomers ExampleRun.world (ExampleRun.options None)
              "/opt/monomers" [] ExampleRun.model0 [])
    as [[[monlib needed]|code|what] tr'] eqn:Hrun;
    [|vm_compute in Hrun; discriminate Hrun..].
  exists monlib, needed, tr'. split; [reflexivity|].
  assert (Hin : "XYZ" ∈ needed).
  { pose proof Hrun as Hrun'. vm_compute in Hrun'. injection Hrun' as _ <- _.
    apply list_elem_of_here. }
  split; [exact Hin|].
  destruct (proj1 (missing_iff_undefined _ _ _ _ _ _ _ _ _ Hrun "XYZ") Hin)
    as (_ & Hlib & _ & Hsrc).
  split; [exact Hlib|exact Hsrc].
Defined.

Lemma prepared_library_complete_witness :
  exists monlib st model0 rest,
    prepared (@Prog.GEMMI_MAIN Example.externals ExampleRun.world
                (ExampleRun.options (Some true))) = Some (monlib, st)
    /\ models st = model0 :: rest
    /\ forall r, r ∈ all_residues model0 ->
         is_Some (monomers monlib !! res_name r).
Proof.
  destruct (prepared (@Prog.GEMMI_MAIN Example.externals ExampleRun.world
                        (ExampleRun.options (Some true))))
    as [[monlib st]|] eqn:Hp; [|vm_compute in Hp; discriminate Hp].
  destruct (@prepared_library_complete Example.externals _ _ _ _ Hp)
    as (model0 & rest & Hmodels & Hall).
  exists monlib, st, model0, rest. split; [reflexivity|].
  split; [exact Hmodels|exact Hall].
Defined.

Lemma auto_link_only_on_request_witness :
  exists monlib st' st st_doc,
    prepared (@Src.GEMMI_MAIN Example.externals ExampleRun.world
                (ExampleRun.options (Some true))) = Some (monlib, st')
    /\ is_yes (opt_auto_link (ExampleRun.options (Some true))) false = false
    /\ read_structure_gz ExampleRun.world "in.pdb" = Some (st, st_doc)
    /\ st' = st.
Proof.
  destruct (prepared (@Src.GEMMI_MAIN Example.externals ExampleRun.world
                        (ExampleRun.options (Some true))))
    as [[monlib st']|] eqn:Hp; [|vm_compute in Hp; discriminate Hp].
  destruct (@auto_link_only_on_request Example.externals _ _ _ _ Hp)
    as (st & st_doc & model0 & rest & Hread & _ & Hoff & _).
  exists monlib, st', st, st_doc. split; [reflexivity|].
  split; [reflexivity|]. split; [exact Hread|]. apply Hoff. reflexivity.
Defined.
